(** * ggshield: patch parsing and scannable content (ggshield/scan/scannable.py)

    A shallow embedding of the commit/patch parsing layer of ggshield and of
    its scannable-content abstraction, together with the properties the
    specification states about them.

    Python [str] values are sequences of Unicode code points: they are
    modelled as [list N].  Python [bytes] are [list byte].  Exceptions are
    values of the type [Exn]; a computation that may raise returns
    [Exn + A].  Generators are modelled by what a consumer observes: the
    items yielded, in order, and how the generator ends. *)

From Stdlib Require Import NArith String Ascii.
From Stdlib.Strings Require Import Byte.
From stdpp Require Import base option list gmap.
From Stdlib Require Import Lia.

Local Open Scope N_scope.
Local Open Scope list_scope.

(* ===================================================================== *)
(** * Python strings *)
(* ===================================================================== *)

Module PyStr.

(** A code point and a Python string. *)
Definition char := N.
Definition str := list char.

(** String literal of the source, as a [str]. *)
Definition lit (s : string) : str :=
  List.map N_of_ascii (list_ascii_of_string s).

(** The code point of an ASCII character. *)
Definition ch (a : ascii) : char := N_of_ascii a.

(** The NUL character ["\0"] and the newline ["\n"]. *)
Definition NUL : char := 0.
Definition LF : char := 10.

(** [s.startswith(p)]. *)
Fixpoint startswith (p s : str) : bool :=
  match p, s with
  | [], _ => true
  | _ :: _, [] => false
  | a :: p', b :: s' => (a =? b) && startswith p' s'
  end.

(** [needle in s] (substring test). *)
Fixpoint contains (needle s : str) : bool :=
  startswith needle s ||
  match s with
  | [] => false
  | _ :: s' => contains needle s'
  end.

(** [s.find(needle)]: index of the first occurrence, if any. *)
Fixpoint find (needle s : str) : option nat :=
  if startswith needle s then Some 0%nat
  else match s with
       | [] => None
       | _ :: s' => S <$> find needle s'
       end.

(** [s.rstrip(chars)]: drop the longest suffix made of characters of
    [chars]. *)
Definition rstrip (chars : str) (s : str) : str :=
  foldr (fun c acc =>
           match acc with
           | [] => if existsb (N.eqb c) chars then [] else [c]
           | _ :: _ => c :: acc
           end) [] s.

(** [s.rsplit(sep, 1)[-1]] for a one-character [sep]: what follows the last
    occurrence of [sep], the whole string when there is none. *)
Fixpoint rsplit1_last (sep : char) (s : str) : str :=
  match s with
  | [] => []
  | c :: s' =>
      if existsb (N.eqb sep) s' then rsplit1_last sep s'
      else if c =? sep then s' else s
  end.

(** A pattern of the splitters below: asked at a position, given the
    character before it (if any) and the text from it on, it answers the
    length of the match that starts there. The patterns used by the source
    all match a fixed, non-empty text. *)
Definition matcher := option char -> str -> option nat.

(** Leftmost, non-overlapping splitting, as [str.split(sep)] and
    [re.split(pattern, s)] do: [cur] is the piece being accumulated, [skip]
    the number of characters of the current match still to be consumed. *)
Fixpoint split_go (m : matcher) (prev : option char) (skip : nat)
    (cur s : str) : list str :=
  match s with
  | [] => [cur]
  | c :: s' =>
      match skip with
      | S k => split_go m (Some c) k cur s'
      | O =>
          match m prev s with
          | Some (S k) => cur :: split_go m (Some c) k [] s'
          | _ => split_go m (Some c) 0 (cur ++ [c]) s'
          end
      end
  end.

Definition split_with (m : matcher) (s : str) : list str :=
  split_go m None 0 [] s.

(** The pattern of a literal separator. *)
Definition m_literal (sep : str) : matcher :=
  fun _ s => if startswith sep s then Some (length sep) else None.

(** [s.split(sep)]. *)
Definition split (sep s : str) : list str := split_with (m_literal sep) s.

(** [s.split(sep, 1)]: one piece when [sep] does not occur, otherwise the
    text before and the text after its first occurrence. *)
Definition split_once (sep s : str) : list str :=
  match find sep s with
  | None => [s]
  | Some i => [take i s; drop (i + length sep) s]
  end.

(** [c.isspace()]: the characters [s.split()] takes for whitespace. *)
Definition isspace (c : char) : bool :=
  ((9 <=? c) && (c <=? 13)) || ((28 <=? c) && (c <=? 32))
  || (c =? 0x85) || (c =? 0xA0) || (c =? 0x1680)
  || ((0x2000 <=? c) && (c <=? 0x200A))
  || (c =? 0x2028) || (c =? 0x2029) || (c =? 0x202F) || (c =? 0x205F)
  || (c =? 0x3000).

(** [s.split()], without separator: the maximal runs of characters that
    are not whitespace; [cur] is the run being read. *)
Fixpoint split_whitespace_go (cur s : str) : list str :=
  match s with
  | [] => match cur with [] => [] | _ => [cur] end
  | c :: s' =>
      if isspace c then
        match cur with
        | [] => split_whitespace_go [] s'
        | _ => cur :: split_whitespace_go [] s'
        end
      else split_whitespace_go (cur ++ [c]) s'
  end.

Definition split_whitespace (s : str) : list str :=
  split_whitespace_go [] s.

(** [a] occurs in [s] as a run of consecutive characters. *)
Definition substring_of (a s : str) : Prop :=
  exists pre post, s = pre ++ a ++ post.

(** The decimal digits, the characters [rstrip("0123456789")] removes. *)
Definition is_digit (c : char) : bool :=
  existsb (N.eqb c) (lit "0123456789").

(** [str(x)] of an optional string: [None] prints as ["None"]. *)
Definition str_of_option (o : option str) : str :=
  match o with
  | Some s => s
  | None => lit "None"
  end.

(** Python truthiness of a string, a list and an optional value. *)
Definition truthy_str (s : str) : bool :=
  match s with [] => false | _ => true end.

Definition truthy_list {A} (l : list A) : bool :=
  match l with [] => false | _ => true end.

Definition truthy_opt_str (o : option str) : bool :=
  match o with Some s => truthy_str s | None => false end.

End PyStr.
Import PyStr.

(* ===================================================================== *)
(** * Exceptions and change kinds *)
(* ===================================================================== *)

(** The exceptions of the embedded code, each with its message:
    [str(exc)] is that message. [ExternalError] stands for what a
    collaborator outside this module raises (the git process, the
    filesystem). *)
Inductive Exn :=
  | ValueError (msg : str)
  | IndexError (msg : str)
  | PatchParseError (msg : str)
  | ExternalError (msg : str).

Definition str_of_exn (e : Exn) : str :=
  match e with
  | ValueError m | IndexError m | PatchParseError m | ExternalError m => m
  end.

(** Modelled from the spec: the enumeration [Filemode] of
    [ggshield.core.utils], which is not part of the sources at hand; the
    specification's ChangeKind is [Added | Modified | Deleted | Renamed |
    File], the source names its members NEW, MODIFY, DELETE, RENAME and
    FILE. *)
Inductive Filemode := MODIFY | DELETE | NEW | RENAME | FILE.

#[global] Instance Filemode_eq_dec : EqDecision Filemode.
Proof. solve_decision. Defined.

#[global] Instance Exn_eq_dec : EqDecision Exn.
Proof. solve_decision. Defined.

(* ===================================================================== *)
(** * The raw patch header *)
(* ===================================================================== *)

(** [status = prefix.rsplit(" ", 1)[-1].rstrip("0123456789")]. *)
Definition status_of_prefix (prefix : str) : str :=
  rstrip (lit "0123456789") (rsplit1_last 32 prefix).

(** The chain of [if "X" in status] tests of [_parse_patch_header_line]. *)
Definition resolve_status (status : str) : option Filemode :=
  if contains (lit "M") status then Some MODIFY
  else if contains (lit "C") status then Some NEW
  else if contains (lit "A") status then Some NEW
  else if contains (lit "T") status then Some NEW
  else if contains (lit "R") status then Some RENAME
  else if contains (lit "D") status then Some DELETE
  else None.

(** [if rest: name = rest[0]]: the name a header line yields is its second
    piece, or its third when there is one (the new name of a rename or a
    copy). *)
Definition entry_name (name : str) (rest : list str) : str :=
  match rest with
  | [] => name
  | new_name :: _ => new_name
  end.

(** The status-and-score field in the words of the specification: the
    last whitespace-separated token of the prefix ([prefix.split()[-1]]),
    if the prefix has a token. *)
Definition last_whitespace_token (prefix : str) : option str :=
  last (split_whitespace prefix).

(** A prefix as git prints it: not empty, with no whitespace other than
    the space character, and not ending with a space. *)
Definition space_separated (prefix : str) : Prop :=
  (forall c, c ∈ prefix -> isspace c = true -> c = 32) /\
  prefix <> [] /\ last prefix <> Some 32.

(** [_parse_patch_header_line(line)]. The unpacking
    [prefix, name, *rest = ...] needs at least two pieces. *)
Definition _parse_patch_header_line (line : str) : Exn + (str * Filemode) :=
  match split [NUL] (rstrip [NUL] line) with
  | prefix :: name :: rest =>
      let name := entry_name name rest in
      let status := status_of_prefix prefix in
      match resolve_status status with
      | Some mode => inr (name, mode)
      | None =>
          inl (ValueError (lit "Can't parse header line " ++ line
                           ++ lit ": unknown status " ++ status))
      end
  | _ =>
      inl (ValueError
             (lit "not enough values to unpack (expected at least 2, got 1)"))
  end.

(** ** Generators *)

(** What the consumer of a generator observes: the items yielded, in order,
    and the way it ends, normally ([None]) or by raising ([Some e]). *)
Definition Gen (A : Type) : Type := list A * option Exn.

(** A generator whose every [next()] runs a computation that may raise: the
    list gives the outcome of each successive step; a step that raises ends
    the generator. *)
Definition Steps (A : Type) : Type := list (Exn + A).

(** [zip(g, l)] for a generator [g] and a list [l]: at each round [g] is
    advanced first, then [l]; the zip ends when either is exhausted, and an
    exception of [g] goes through it. *)
Fixpoint zip_gen {A B} (g : Steps A) (l : list B) : Gen (A * B) :=
  match g with
  | [] => ([], None)
  | inl e :: _ => ([], Some e)
  | inr a :: g' =>
      match l with
      | [] => ([], None)
      | b :: l' => let '(r, e) := zip_gen g' l' in ((a, b) :: r, e)
      end
  end.

(** Running generators one after the other ([for ... : yield ...] over the
    commit sections): an exception stops everything that follows. *)
Fixpoint gen_concat {A} (gs : list (Gen A)) : Gen A :=
  match gs with
  | [] => ([], None)
  | (xs, Some e) :: _ => (xs, Some e)
  | (xs, None) :: gs' => let '(ys, e) := gen_concat gs' in (xs ++ ys, e)
  end.

(** A [for] loop over the items of a generator whose body, for each item,
    skips it ([continue]), yields one value or raises: the loop ends at
    the first exception, of the body or of the generator ([final] is the
    way the generator ends after its last item). *)
Fixpoint for_yield {A B} (body : A -> option (Exn + B)) (items : list A)
    (final : option Exn) : Gen B :=
  match items with
  | [] => ([], final)
  | item :: items' =>
      match body item with
      | None => for_yield body items' final
      | Some (inl e) => ([], Some e)
      | Some (inr y) =>
          let '(ys, e) := for_yield body items' final in (y :: ys, e)
      end
  end.

(** [list(g)]. *)
Definition list_of_gen {A} (g : Gen A) : Exn + list A :=
  match g with
  | (_, Some e) => inl e
  | (xs, None) => inr xs
  end.

(** ** The whole header *)

(** [_RX_HEADER_LINE_SEPARATOR = re.compile("[\n\0]:", re.MULTILINE)]. *)
Definition _RX_HEADER_LINE_SEPARATOR : matcher :=
  fun _ s =>
    match s with
    | c1 :: c2 :: _ =>
        if ((c1 =? LF) || (c1 =? NUL)) && (c2 =? 58) then Some 2%nat else None
    | _ => None
    end.

(** The lines [_parse_patch_header] iterates over:
    [_RX_HEADER_LINE_SEPARATOR.split(header)[1:]], after the test of
    [header[0]], which raises on the empty string. *)
Definition header_lines (header : str) : Exn + list str :=
  match header with
  | [] => inl (IndexError (lit "string index out of range"))
  | c :: _ =>
      let header := if c =? 58 then LF :: header else header in
      inr (tail (split_with _RX_HEADER_LINE_SEPARATOR header))
  end.

(** [_parse_patch_header(header)], a generator: the first [next()] runs the
    body up to the first [yield]. *)
Definition _parse_patch_header (header : str) : Steps (str * Filemode) :=
  match header_lines header with
  | inl e => [inl e]
  | inr lines =>
      List.map (fun line => _parse_patch_header_line (58 :: line)) lines
  end.

(* ===================================================================== *)
(** * The text decoder *)
(* ===================================================================== *)

Definition bytes := list byte.

Definition U_REPLACEMENT : char := 0xFFFD.
Definition U_BOM : char := 0xFEFF.

(** [codecs.BOM_UTF8]. *)
Definition BOM_UTF8 : bytes := [xef; xbb; xbf].

(** [raw.startswith(p)] on bytes. *)
Fixpoint bytes_startswith (p raw : bytes) : bool :=
  match p, raw with
  | [], _ => true
  | _ :: _, [] => false
  | a :: p', b :: raw' => Byte.eqb a b && bytes_startswith p' raw'
  end.

Definition is_cont (n : N) : bool := (0x80 <=? n) && (n <=? 0xBF).

(** The second byte a three-byte and a four-byte sequence accept, which
    excludes overlong forms, surrogates and code points above U+10FFFF. *)
Definition second_ok3 (n0 n1 : N) : bool :=
  if n0 =? 0xE0 then (0xA0 <=? n1) && (n1 <=? 0xBF)
  else if n0 =? 0xED then (0x80 <=? n1) && (n1 <=? 0x9F)
  else is_cont n1.

Definition second_ok4 (n0 n1 : N) : bool :=
  if n0 =? 0xF0 then (0x90 <=? n1) && (n1 <=? 0xBF)
  else if n0 =? 0xF4 then (0x80 <=? n1) && (n1 <=? 0x8F)
  else is_cont n1.

(** [raw.decode("utf_8", errors="replace")]: Python's UTF-8 decoder, which
    does not treat a leading byte-order mark specially and replaces every
    maximal ill-formed sequence by U+FFFD. *)
Fixpoint utf8_decode (raw : bytes) : str :=
  match raw with
  | [] => []
  | b0 :: t0 =>
      let n0 := Byte.to_N b0 in
      if n0 <? 0x80 then n0 :: utf8_decode t0
      else if (0xC2 <=? n0) && (n0 <=? 0xDF) then
        match t0 with
        | [] => [U_REPLACEMENT]
        | b1 :: t1 =>
            let n1 := Byte.to_N b1 in
            if is_cont n1
            then ((n0 - 0xC0) * 64 + (n1 - 0x80)) :: utf8_decode t1
            else U_REPLACEMENT :: utf8_decode t0
        end
      else if (0xE0 <=? n0) && (n0 <=? 0xEF) then
        match t0 with
        | [] => [U_REPLACEMENT]
        | b1 :: t1 =>
            let n1 := Byte.to_N b1 in
            if second_ok3 n0 n1 then
              match t1 with
              | [] => [U_REPLACEMENT]
              | b2 :: t2 =>
                  let n2 := Byte.to_N b2 in
                  if is_cont n2
                  then ((n0 - 0xE0) * 4096 + (n1 - 0x80) * 64 + (n2 - 0x80))
                         :: utf8_decode t2
                  else U_REPLACEMENT :: utf8_decode t1
              end
            else U_REPLACEMENT :: utf8_decode t0
        end
      else if (0xF0 <=? n0) && (n0 <=? 0xF4) then
        match t0 with
        | [] => [U_REPLACEMENT]
        | b1 :: t1 =>
            let n1 := Byte.to_N b1 in
            if second_ok4 n0 n1 then
              match t1 with
              | [] => [U_REPLACEMENT]
              | b2 :: t2 =>
                  let n2 := Byte.to_N b2 in
                  if is_cont n2 then
                    match t2 with
                    | [] => [U_REPLACEMENT]
                    | b3 :: t3 =>
                        let n3 := Byte.to_N b3 in
                        if is_cont n3
                        then ((n0 - 0xF0) * 262144 + (n1 - 0x80) * 4096
                              + (n2 - 0x80) * 64 + (n3 - 0x80))
                               :: utf8_decode t3
                        else U_REPLACEMENT :: utf8_decode t2
                    end
                  else U_REPLACEMENT :: utf8_decode t1
              end
            else U_REPLACEMENT :: utf8_decode t0
        end
      else U_REPLACEMENT :: utf8_decode t0
  end.

(** What the code does to the outside world, in order. *)
Inductive Event :=
  | GitCall (args : list str)
  | ParsePatch (patch : str)
  | LogWarning (msg : str)
  | StatFile (path : str)
  | ReadFile (path : str).

#[global] Instance Event_eq_dec : EqDecision Event.
Proof. solve_decision. Defined.

Definition World := list Event.

(* ===================================================================== *)
(** * Scannables, file sets and commits *)
(* ===================================================================== *)

(** [CommitInformation]. *)
Record CommitInformation := {
  author : str;
  email : str;
  date : str
}.

(** [File]: content read from the disk the first time it is needed. *)
Record File := {
  file_url : str;
  file_filemode : Filemode;
  file_content : option str      (* [_content] *)
}.

(** [StringScannable]: content already in memory. *)
Record StringScannable := {
  ss_url : str;
  ss_filemode : Filemode;
  ss_content : str               (* [_content] *)
}.

(** The two implementations of [Scannable]. *)
Inductive Scannable :=
  | OfFile (f : File)
  | OfString (s : StringScannable).

Definition url (x : Scannable) : str :=
  match x with OfFile f => file_url f | OfString s => ss_url s end.

Definition filemode (x : Scannable) : Filemode :=
  match x with OfFile f => file_filemode f | OfString s => ss_filemode s end.

(** [Scannable.filename] returns the url. *)
Definition filename (x : Scannable) : str := url x.

(** [File(filename)]. *)
Definition File_init (filename : str) : File :=
  {| file_url := filename; file_filemode := FILE; file_content := None |}.

Definition set_file_content (f : File) (c : str) : File :=
  {| file_url := file_url f; file_filemode := file_filemode f;
     file_content := Some c |}.

Section Collaborators.

(** The collaborators the module imports and does not define. *)

(** [Set[re.Pattern]] and [ggshield.core.filter.is_filepath_excluded]. *)
Variable Patterns : Type.
Variable is_filepath_excluded : str -> Patterns -> bool.

(** [urllib.parse.urlparse(url)] raises on some urls (a [ValueError] for
    ["//[x"], whose host has an unmatched bracket): the exception it
    raises on [url], if it raises. *)
Variable urlparse_raises : str -> option Exn.

(** [ggshield.core.git_shell.git]: the text the process prints, or the
    exception it ends with; the answer may depend on everything that
    happened before. *)
Variable git : list str -> World -> Exn + str.

(** [charset_normalizer.from_bytes(raw).best()]: the encoding of the best
    match, if there is one. *)
Variable from_bytes_best : bytes -> option str.

(** [raw.decode(encoding, errors="replace")] for the encodings other than
    UTF-8. *)
Variable codecs_decode : str -> bytes -> str.

(** [urllib.parse.urlparse(url).path], for the urls on which it returns. *)
Variable urlparse_path : str -> str.

(** The files on the disk, by path: the bytes of the file, or the
    exception the operating system answers with (a [FileNotFoundError]
    for a path that does not exist). *)
Variable disk : str -> Exn + bytes.

(** [REGEX_HEADER_INFO.search(patch)], with the named groups of a match
    as a [CommitInformation]. *)
Variable REGEX_HEADER_INFO_search : str -> option CommitInformation.

(** [Scannable.path]. *)
Definition path (x : Scannable) : str := urlparse_path (url x).

(** [raw.decode(encoding, errors="replace")]. *)
Definition bytes_decode (encoding : str) (raw : bytes) : str :=
  if bool_decide (encoding = lit "utf_8") then utf8_decode raw
  else codecs_decode encoding raw.

(** [File._decode_bytes(raw_document, filename)]. *)
Definition _decode_bytes (raw_document : bytes) (filename : str)
    (w : World) : str * World :=
  match from_bytes_best raw_document with
  | None =>
      ([], w ++ [LogWarning (lit "Skipping " ++ filename
                             ++ lit ", can't detect encoding")])
  | Some encoding =>
      let raw_document :=
        if bool_decide (encoding = lit "utf_8")
           && bytes_startswith BOM_UTF8 raw_document
        then drop (length BOM_UTF8) raw_document
        else raw_document in
      (bytes_decode encoding raw_document, w)
  end.

(** [os.path.getsize(path)]. *)
Definition getsize (p : str) (w : World) : (Exn + Z) * World :=
  match disk p with
  | inr raw => (inr (Z.of_nat (length raw)), w ++ [StatFile p])
  | inl e => (inl e, w ++ [StatFile p])
  end.

(** [File.is_longer_than(size)]:
    [doc_size = len(self._content) if self._content
                else os.path.getsize(self.path)]. *)
Definition File_is_longer_than (f : File) (size : Z) (w : World)
    : (Exn + bool) * World :=
  if truthy_opt_str (file_content f) then
    (inr (size <? Z.of_nat (length (default [] (file_content f))))%Z, w)
  else
    match getsize (path (OfFile f)) w with
    | (inr doc_size, w') => (inr (size <? doc_size)%Z, w')
    | (inl e, w') => (inl e, w')
    end.

(** [File._prepare()] followed by the read of [_content]:
    the [content] property. *)
Definition File_content (f : File) (w : World)
    : (Exn + str) * File * World :=
  match file_content f with
  | Some c => (inr c, f, w)
  | None =>
      let p := path (OfFile f) in
      match disk p with
      | inl e => (inl e, f, w ++ [ReadFile p])
      | inr raw =>
          let '(c, w') :=
            _decode_bytes raw (filename (OfFile f)) (w ++ [ReadFile p]) in
          (inr c, set_file_content f c, w')
      end
  end.

(** [Scannable.__init__(url, filemode)] parses the url: the constructors
    of both kinds of scannables raise what [urlparse] raises. *)
Definition Scannable_init (url : str) : Exn + unit :=
  match urlparse_raises url with
  | Some e => inl e
  | None => inr tt
  end.

(** [File(filename)], with the call of the base constructor;
    [File_init] is the object when that call returns. *)
Definition File_new (filename : str) : Exn + File :=
  match Scannable_init filename with
  | inl e => inl e
  | inr _ => inr (File_init filename)
  end.

(** [StringScannable(url, content, filemode)], after the call of the base
    constructor has returned: bytes are decoded at construction. *)
Definition StringScannable_init (url : str) (content : str + bytes)
    (filemode : Filemode) (w : World) : StringScannable * World :=
  match content with
  | inl text =>
      ({| ss_url := url; ss_filemode := filemode; ss_content := text |}, w)
  | inr raw =>
      let '(text, w') := _decode_bytes raw url w in
      ({| ss_url := url; ss_filemode := filemode; ss_content := text |}, w')
  end.

(** [StringScannable(url, content, filemode)], with the call of the base
    constructor, which comes first. *)
Definition StringScannable_new (url : str) (content : str + bytes)
    (filemode : Filemode) (w : World)
    : (Exn + StringScannable) * World :=
  match Scannable_init url with
  | inl e => (inl e, w)
  | inr _ =>
      let '(s, w') := StringScannable_init url content filemode w in
      (inr s, w')
  end.

(** [StringScannable.is_longer_than(size)]. *)
Definition StringScannable_is_longer_than (s : StringScannable) (size : Z)
    : bool :=
  (size <? Z.of_nat (length (ss_content s)))%Z.

(** ** The patch *)

(** [re.split(r"^diff ", rest, flags=re.MULTILINE)]: ["diff "] at the
    start of the text or right after a newline. *)
Definition RX_DIFF_LINE : matcher :=
  fun prev s =>
    let at_line_start :=
      match prev with
      | None => true
      | Some c => c =? LF
      end in
    if at_line_start && startswith (lit "diff ") s then Some 5%nat
    else None.

(** The body of the inner loop of [_parse_patch] for one pair, up to the
    call of the constructor: the scannable to build; [None] is
    [continue]. *)
Definition hunk_of_pair (exclusion_regexes : Patterns)
    (p : (str * Filemode) * str) : option Scannable :=
  let '((filename, filemode), diff) := p in
  if is_filepath_excluded filename exclusion_regexes then None
  else
    match find (LF :: lit "@@") diff with
    | None => None
    | Some end_of_headers =>
        let content := drop (end_of_headers + 1) diff in
        Some (OfString {| ss_url := filename; ss_filemode := filemode;
                          ss_content := content |})
    end.

(** The body of the inner loop of [_parse_patch] for one pair: [None] is
    [continue]; the constructor of the scannable may raise. *)
Definition scannable_of_pair (exclusion_regexes : Patterns)
    (p : (str * Filemode) * str) : option (Exn + Scannable) :=
  match hunk_of_pair exclusion_regexes p with
  | None => None
  | Some x =>
      match Scannable_init (url x) with
      | inl e => Some (inl e)
      | inr _ => Some (inr x)
      end
  end.

(** One [header, rest] of [_parse_patch]: the inner [for] over
    [zip(names_and_modes, diffs)]. *)
Definition parse_section (exclusion_regexes : Patterns) (header rest : str)
    : Gen Scannable :=
  let names_and_modes := _parse_patch_header header in
  let diffs := split_with RX_DIFF_LINE rest in
  let '(pairs, e) := zip_gen names_and_modes diffs in
  for_yield (scannable_of_pair exclusion_regexes) pairs e.

(** One iteration of the outer loop of [_parse_patch]. *)
Definition parse_commit (exclusion_regexes : Patterns) (commit : str)
    : Gen Scannable :=
  match split_once (NUL :: lit "diff ") commit with
  | [header; rest] => parse_section exclusion_regexes header rest
  | _ => ([], None)
  end.

(** [_parse_patch(patch, exclusion_regexes)], a generator. *)
Definition _parse_patch (patch : str) (exclusion_regexes : Patterns)
    : Gen Scannable :=
  gen_concat
    (List.map (parse_commit exclusion_regexes)
              (split (NUL :: lit "commit ") patch)).

(** ** Commit *)

Record Commit := {
  sha : option str;
  _patch : option str;
  _files : list Scannable;
  exclusion_regexes : Patterns;
  _info : option CommitInformation
}.

(** [Commit(sha, exclusion_regexes)]. *)
Definition Commit_init (sha : option str) (excl : Patterns) : Commit :=
  {| sha := sha; _patch := None; _files := [];
     exclusion_regexes := excl; _info := None |}.

Definition set_patch (c : Commit) (p : str) : Commit :=
  {| sha := sha c; _patch := Some p; _files := _files c;
     exclusion_regexes := exclusion_regexes c; _info := _info c |}.

Definition set_files (c : Commit) (fs : list Scannable) : Commit :=
  {| sha := sha c; _patch := _patch c; _files := fs;
     exclusion_regexes := exclusion_regexes c; _info := _info c |}.

Definition set_info (c : Commit) (i : CommitInformation) : Commit :=
  {| sha := sha c; _patch := _patch c; _files := _files c;
     exclusion_regexes := exclusion_regexes c; _info := Some i |}.

Definition common_args : list str :=
  [lit "--raw"; lit "-z"; lit "--patch"; lit "-m"].

(** The arguments [Commit.patch] gives to git. *)
Definition git_args (c : Commit) : list str :=
  match sha c with
  | Some s =>
      if truthy_str s then [lit "show"; s] ++ common_args
      else [lit "diff"; lit "--cached"] ++ common_args
  | None => [lit "diff"; lit "--cached"] ++ common_args
  end.

(** The [Commit.patch] property. *)
Definition patch (c : Commit) (w : World) : (Exn + str) * Commit * World :=
  match _patch c with
  | Some p => (inr p, c, w)
  | None =>
      let args := git_args c in
      match git args w with
      | inr p => (inr p, set_patch c p, w ++ [GitCall args])
      | inl e => (inl e, c, w ++ [GitCall args])
      end
  end.

(** The message of the error [Commit.get_files] raises. *)
Definition parse_error_message (c : Commit) (exc : Exn) : str :=
  lit "Could not parse patch (sha: " ++ str_of_option (sha c)
    ++ lit "): " ++ str_of_exn exc.

(** [Commit.get_files()], a generator: everything it does happens when it
    is iterated. *)
Definition get_files (c : Commit) (w : World)
    : Gen Scannable * Commit * World :=
  match patch c w with
  | (inl exc, c', w') =>
      (([], Some (PatchParseError (parse_error_message c exc))), c', w')
  | (inr p, c', w') =>
      let w'' := w' ++ [ParsePatch p] in
      match _parse_patch p (exclusion_regexes c') with
      | (xs, None) => ((xs, None), c', w'')
      | (xs, Some exc) =>
          ((xs, Some (PatchParseError (parse_error_message c exc))),
           c', w'')
      end
  end.

(** The [Commit.files] property. *)
Definition files (c : Commit) (w : World)
    : (Exn + list Scannable) * Commit * World :=
  if negb (truthy_list (_files c)) then
    let '(g, c', w') := get_files c w in
    match list_of_gen g with
    | inl e => (inl e, c', w')
    | inr fs => (inr fs, set_files c' fs, w')
    end
  else (inr (_files c), c, w).

(** The [Commit.info] property. *)
Definition info (c : Commit) (w : World)
    : (Exn + CommitInformation) * Commit * World :=
  match _info c with
  | Some i => (inr i, c, w)
  | None =>
      match patch c w with
      | (inl e, c', w') => (inl e, c', w')
      | (inr p, c', w') =>
          let i :=
            match REGEX_HEADER_INFO_search p with
            | None =>
                {| author := lit "unknown"; email := []; date := [] |}
            | Some i => i
            end in
          (inr i, set_info c' i, w')
      end
  end.

(** [Commit] inherits [apply_filter] from [Files]; there [self.files] is
    the property above. *)
Definition Commit_apply_filter (c : Commit)
    (filter_func : Scannable -> bool) (w : World)
    : (Exn + list Scannable) * Commit * World :=
  match files c w with
  | (inr fs, c', w') => (inr (List.filter filter_func fs), c', w')
  | (inl e, c', w') => (inl e, c', w')
  end.

(** ** Sequences of accesses to the memoizing properties *)

Inductive Access := AccessPatch | AccessFiles | AccessInfo.

Inductive Outcome :=
  | PatchOutcome (r : Exn + str)
  | FilesOutcome (r : Exn + list Scannable)
  | InfoOutcome (r : Exn + CommitInformation).

Definition run_access (a : Access) (c : Commit) (w : World)
    : Outcome * Commit * World :=
  match a with
  | AccessPatch => let '(r, c', w') := patch c w in (PatchOutcome r, c', w')
  | AccessFiles => let '(r, c', w') := files c w in (FilesOutcome r, c', w')
  | AccessInfo => let '(r, c', w') := info c w in (InfoOutcome r, c', w')
  end.

(** The accesses run in order, each from the state the previous one
    left, whether it returned or raised. *)
Fixpoint run_accesses (l : list Access) (c : Commit) (w : World)
    : list Outcome * Commit * World :=
  match l with
  | [] => ([], c, w)
  | a :: l' =>
      let '(o, c', w') := run_access a c w in
      let '(os, c'', w'') := run_accesses l' c' w' in
      (o :: os, c'', w'')
  end.

End Collaborators.

Arguments sha {Patterns} c.
Arguments _patch {Patterns} c.
Arguments _files {Patterns} c.
Arguments _info {Patterns} c.
Arguments exclusion_regexes {Patterns} c.
Arguments Commit_init {Patterns} sha excl.
Arguments set_patch {Patterns} c p.
Arguments set_files {Patterns} c fs.
Arguments set_info {Patterns} c i.
Arguments git_args {Patterns} c.
Arguments parse_error_message {Patterns} c exc.
Arguments hunk_of_pair {Patterns} is_filepath_excluded exclusion_regexes p.
Arguments scannable_of_pair {Patterns} is_filepath_excluded urlparse_raises
  exclusion_regexes p.
Arguments parse_section {Patterns} is_filepath_excluded urlparse_raises
  exclusion_regexes header rest.
Arguments parse_commit {Patterns} is_filepath_excluded urlparse_raises
  exclusion_regexes commit.
Arguments _parse_patch {Patterns} is_filepath_excluded urlparse_raises patch
  exclusion_regexes.
Arguments patch {Patterns} git c w.
Arguments get_files {Patterns} is_filepath_excluded urlparse_raises git c w.
Arguments files {Patterns} is_filepath_excluded urlparse_raises git c w.
Arguments info {Patterns} git REGEX_HEADER_INFO_search c w.
Arguments Commit_apply_filter {Patterns} is_filepath_excluded
  urlparse_raises git c filter_func w.
Arguments run_access {Patterns} is_filepath_excluded urlparse_raises git
  REGEX_HEADER_INFO_search a c w.
Arguments run_accesses {Patterns} is_filepath_excluded urlparse_raises git
  REGEX_HEADER_INFO_search l c w.

(** The number of git processes a log records, and the number of runs of
    the patch parser. *)
Definition is_git_call (e : Event) : bool :=
  match e with GitCall _ => true | _ => false end.

Definition is_parse_patch (e : Event) : bool :=
  match e with ParsePatch _ => true | _ => false end.

Definition is_read_file (e : Event) : bool :=
  match e with ReadFile _ => true | _ => false end.

(** The number of reads of a file a log records. *)
Definition file_reads (w : World) : nat :=
  length (List.filter is_read_file w).

Definition git_calls (w : World) : nat :=
  length (List.filter is_git_call w).

Definition patch_parses (w : World) : nat :=
  length (List.filter is_parse_patch w).

(** ** File sets as objects

    A [Files] object holds a reference to a Python list; the lists live in
    a store, so that two objects may share one list. *)
Module FilesObj.

Abbreviation loc := positive.
Abbreviation store := (gmap loc (list Scannable)).

Record Files := { _files : loc }.

(** [Files(files)]: the object keeps the list it is given. *)
Definition Files_init (files : loc) : Files := {| _files := files |}.

(** The [Files.files] property. *)
Definition files (self : Files) (h : store) : list Scannable :=
  default [] (h !! _files self).

(** A list comprehension builds a new list object. *)
Definition new_list (l : list Scannable) (h : store) : loc * store :=
  let r := fresh (dom h) in (r, <[r := l]> h).

(** [Files.apply_filter(filter_func)]:
    [Files([file for file in self.files if filter_func(file)])]. *)
Definition apply_filter (self : Files) (filter_func : Scannable -> bool)
    (h : store) : Files * store :=
  let '(r, h') := new_list (List.filter filter_func (files self h)) h in
  (Files_init r, h').

End FilesObj.

(** ** Sample collaborators

    Concrete collaborators and inputs for the examples. *)
Module Sample.

(** No exclusion patterns. *)
Definition not_excluded (_ : str) (_ : unit) : bool := false.

(** A detection that always answers UTF-8. *)
Definition best_utf8 (_ : bytes) : option str := Some (lit "utf_8").

Definition no_codec (_ : str) (_ : bytes) : str := [].

(** Paths without a scheme are their own path component. *)
Definition plain_path (u : str) : str := u.

(** A disk with a file of four bytes and a file that holds the UTF-8
    byte-order mark and nothing else. *)
Definition blob : bytes := [xff; xfe; x00; x80].

(** The error of a path that does not exist. *)
Definition not_found (p : str) : Exn :=
  ExternalError (lit "[Errno 2] No such file or directory: '" ++ p
                 ++ lit "'").

Definition disk (p : str) : Exn + bytes :=
  if bool_decide (p = lit "blob.bin") then inr blob
  else if bool_decide (p = lit "bom.txt") then inr BOM_UTF8
  else inl (not_found p).

(** An [urlparse] that raises as [urllib] does on an url without scheme
    that starts with ["//"] and whose host (what comes before the next
    ["/"], ["?"] or ["#"]) has a bracket without its match. *)
Definition host_of (u : str) : str :=
  (fix go (s : str) : str :=
     match s with
     | [] => []
     | c :: s' =>
         if (c =? ch "/") || (c =? ch "?") || (c =? ch "#") then []
         else c :: go s'
     end) u.

Definition urlparse_raises (u : str) : option Exn :=
  match u with
  | 47 :: 47 :: rest =>
      let host := host_of rest in
      if xorb (contains (lit "[") host) (contains (lit "]") host)
      then Some (ValueError (lit "Invalid IPv6 URL"))
      else None
  | _ => None
  end.

(** A git that always prints the given text. *)
Definition git_prints (text : str) (_ : list str) (_ : World)
    : Exn + str := inr text.

(** A git whose output changes from one call to the next: it prints as
    many ["x"] as there were calls before. *)
Definition git_counting (_ : list str) (w : World) : Exn + str :=
  inr (replicate (git_calls w) (ch "x")).

(** A detection that answers Latin-1, and a Latin-1 decoder: one
    character per byte. *)
Definition best_latin1 (_ : bytes) : option str := Some (lit "latin_1").
Definition latin1_codec (_ : str) (raw : bytes) : str :=
  List.map Byte.to_N raw.

(** A git that fails. *)
Definition git_fails (_ : list str) (_ : World) : Exn + str :=
  inl (ExternalError (lit "fatal: bad object")).

Definition no_info (_ : str) : option CommitInformation := None.

(** The patch of a commit that modifies [a.txt]. *)
Definition patch_one_file : str :=
  lit "commit 1234" ++ [LF] ++ lit "Author: A <a@b>" ++ [LF; LF]
  ++ lit ":100644 100644 aaaa bbbb M" ++ [NUL] ++ lit "a.txt" ++ [NUL]
  ++ [NUL] ++ lit "diff --git a/a.txt b/a.txt" ++ [LF]
  ++ lit "--- a/a.txt" ++ [LF] ++ lit "+++ b/a.txt" ++ [LF]
  ++ lit "@@ -1 +1 @@" ++ [LF] ++ lit "-old" ++ [LF] ++ lit "+new" ++ [LF].

(** The same patch with the unknown status letter [X]. *)
Definition patch_unknown_status : str :=
  lit "commit 1234" ++ [LF] ++ lit "Author: A <a@b>" ++ [LF; LF]
  ++ lit ":100644 100644 aaaa bbbb X" ++ [NUL] ++ lit "a.txt" ++ [NUL]
  ++ [NUL] ++ lit "diff --git a/a.txt b/a.txt" ++ [LF]
  ++ lit "@@ -1 +1 @@" ++ [LF] ++ lit "-old" ++ [LF] ++ lit "+new" ++ [LF].

(** The header line of [patch_unknown_status], as the parser sees it. *)
Definition unknown_line : str :=
  lit ":100644 100644 aaaa bbbb X" ++ [NUL] ++ lit "a.txt" ++ [NUL].

(** A header with two entries and the text of a single diff (what
    follows the first diff marker). *)
Definition header_two : str :=
  lit "commit 1234" ++ [LF] ++ lit "Author: A <a@b>" ++ [LF; LF]
  ++ lit ":100644 100644 aaaa bbbb M" ++ [NUL] ++ lit "a.txt" ++ [NUL]
  ++ lit ":100644 100644 cccc dddd D" ++ [NUL] ++ lit "b.txt" ++ [NUL].

Definition rest_one : str :=
  lit "--git a/a.txt b/a.txt" ++ [LF]
  ++ lit "@@ -1 +1 @@" ++ [LF] ++ lit "-old" ++ [LF] ++ lit "+new" ++ [LF].


Definition header_bad_third : str :=
  lit "commit 1234" ++ [LF; LF]
  ++ lit ":100644 100644 aaaa bbbb M" ++ [NUL] ++ lit "a.txt" ++ [NUL]
  ++ lit ":100644 100644 cccc dddd D" ++ [NUL] ++ lit "b.txt" ++ [NUL]
  ++ unknown_line.

(** The scannable of the single diff [rest_one], for [a.txt]. *)
Definition scannable_a : Scannable :=
  OfString {| ss_url := lit "a.txt"; ss_filemode := MODIFY;
              ss_content := lit "@@ -1 +1 @@" ++ [LF] ++ lit "-old"
                            ++ [LF] ++ lit "+new" ++ [LF] |}.

(** A commit section with a header and no diff. *)
Definition merge_without_diff : str :=
  lit "commit 1234 (from 5678)" ++ [LF] ++ lit "Merge: 5678 9abc" ++ [LF]
  ++ lit "Author: A <a@b>" ++ [LF].


(** A patch that begins with the diff marker. *)
Definition patch_no_header : str :=
  [NUL] ++ lit "diff --git a/a.txt b/a.txt" ++ [LF]
  ++ lit "@@ -1 +1 @@" ++ [LF] ++ lit "-old" ++ [LF] ++ lit "+new" ++ [LF].

(** A disk with a text file. *)
Definition text_disk (p : str) : Exn + bytes :=
  if bool_decide (p = lit "a.txt") then inr [x68; x65; x6c; x6c; x6f]
  else inl (not_found p).

(** [lambda f: f.filemode == Filemode.FILE]. *)
Definition is_plain_file (x : Scannable) : bool :=
  bool_decide (filemode x = FILE).

(** Two scannables for the examples on file sets. *)
Definition small : Scannable :=
  OfString {| ss_url := lit "small"; ss_filemode := FILE;
              ss_content := lit "ab" |}.
Definition large : Scannable :=
  OfString {| ss_url := lit "large"; ss_filemode := FILE;
              ss_content := lit "abcdefgh" |}.

(** [lambda f: not f.is_longer_than(4)] on in-memory scannables. *)
Definition at_most_4 (x : Scannable) : bool :=
  match x with
  | OfString s => negb (StringScannable_is_longer_than s 4)
  | OfFile _ => true
  end.

End Sample.

(* ===================================================================== *)
(** * Properties of the string functions *)
(* ===================================================================== *)

Lemma startswith_single (c : char) (s : str) :
  startswith [c] s = true <-> exists s', s = c :: s'.
Proof.
  destruct s as [|b s']; simpl.
  - split; [discriminate | intros [? ?]; discriminate].
  - rewrite andb_true_r, N.eqb_eq. split.
    + intros ->. eauto.
    + intros [? [= -> _]]. reflexivity.
Qed.

(** ["c" in s] for a one-character string is membership of the
    character. *)
Lemma contains_single (c : char) (s : str) :
  contains [c] s = true <-> c ∈ s.
Proof.
  induction s as [|b s' IH].
  - simpl. split; [discriminate | intros H; inversion H].
  - change (contains [c] (b :: s'))
      with (startswith [c] (b :: s') || contains [c] s').
    rewrite orb_true_iff, startswith_single, IH, elem_of_cons.
    split.
    + intros [[? [= -> _]] | ?]; auto.
    + intros [-> | ?]; eauto.
Qed.

Lemma contains_single_false (c : char) (s : str) :
  contains [c] s = false <-> c ∉ s.
Proof.
  rewrite <- contains_single. destruct (contains [c] s); split; done.
Qed.

Lemma contains_single_decide (c : char) (s : str) :
  contains [c] s = bool_decide (c ∈ s).
Proof.
  destruct (contains [c] s) eqn:E; symmetry.
  - by apply bool_decide_eq_true_2, contains_single.
  - by apply bool_decide_eq_false_2, contains_single_false.
Qed.

Lemma startswith_app (p s : str) : startswith p (p ++ s) = true.
Proof.
  induction p as [|a p IH]; simpl; [done|].
  rewrite N.eqb_refl. exact IH.
Qed.

Lemma find_app_prefix (sep rest : str) : find sep (sep ++ rest) = Some 0%nat.
Proof.
  destruct sep as [|a sep]; [by destruct rest|].
  change (find (a :: sep) ((a :: sep) ++ rest))
    with (if startswith (a :: sep) ((a :: sep) ++ rest) then Some 0%nat
          else S <$> find (a :: sep) (sep ++ rest)).
  by rewrite startswith_app.
Qed.

(** A text that starts with the separator splits into the empty text and
    what follows the separator. *)
Lemma split_once_prefix (sep rest : str) :
  split_once sep (sep ++ rest) = [[]; rest].
Proof.
  unfold split_once. rewrite find_app_prefix. simpl.
  by rewrite drop_app_length.
Qed.

Lemma rsplit1_last_no_sep (sep : char) (s : str) :
  sep ∉ s -> rsplit1_last sep s = s.
Proof.
  induction s as [|c s IH]; [done|].
  intros [Hc Hs]%not_elem_of_cons. simpl.
  destruct (existsb (N.eqb sep) s) eqn:E.
  - apply existsb_exists in E as (x & Hx & ->%N.eqb_eq).
    by apply list_elem_of_In in Hx.
  - destruct (N.eqb_spec c sep); congruence.
Qed.

Lemma rsplit1_last_app (sep : char) (a b : str) :
  sep ∈ b -> rsplit1_last sep (a ++ b) = rsplit1_last sep b.
Proof.
  intros Hb. induction a as [|c a IH]; [done|]. simpl.
  replace (existsb (N.eqb sep) (a ++ b)) with true; [done|].
  symmetry. apply existsb_exists. exists sep. split.
  - apply in_or_app. right. by apply list_elem_of_In.
  - apply N.eqb_refl.
Qed.

Lemma rsplit1_last_cons_sep (sep : char) (s : str) :
  rsplit1_last sep (sep :: s) = rsplit1_last sep s.
Proof.
  simpl. destruct (existsb (N.eqb sep) s) eqn:E; [done|].
  rewrite N.eqb_refl. symmetry. apply rsplit1_last_no_sep.
  intros Hin. apply list_elem_of_In in Hin.
  assert (existsb (N.eqb sep) s = true) as E'; [|congruence].
  apply existsb_exists. exists sep. split; [done | apply N.eqb_refl].
Qed.

Lemma last_cons_is_Some {A} (x : A) (l : list A) (y : A) :
  last l = Some y -> last (x :: l) = Some y.
Proof. destruct l; [done|]. done. Qed.

(** What follows the last space is the last whitespace-separated token
    when the only whitespace of the text is the space character and the
    text does not end with one. *)
Lemma rsplit1_last_whitespace_go (cur s : str) :
  (forall c, c ∈ cur -> isspace c = false) ->
  (forall c, c ∈ s -> isspace c = true -> c = 32) ->
  cur ++ s <> [] ->
  last (cur ++ s) <> Some 32 ->
  last (split_whitespace_go cur s) = Some (rsplit1_last 32 (cur ++ s)).
Proof.
  revert cur. induction s as [|c s IH]; intros cur Hcur Hs Hne Hlast.
  - rewrite app_nil_r in *. rewrite rsplit1_last_no_sep.
    + destruct cur; [done|]. done.
    + intros Hin. by specialize (Hcur _ Hin).
  - simpl. destruct (isspace c) eqn:Hc.
    + assert (c = 32) as -> by (apply Hs; [left | done]).
      assert (s <> []) as Hs'.
      { intros ->. apply Hlast. by rewrite last_snoc. }
      assert (last s <> Some 32) as Hlast'.
      { intros E. apply Hlast. rewrite last_app, last_cons, E. done. }
      assert (last (split_whitespace_go [] s)
              = Some (rsplit1_last 32 s)) as Hrec.
      { apply (IH []); try done.
        - intros c Hin. inversion Hin.
        - intros c Hin. apply Hs. by right. }
      rewrite rsplit1_last_app by left. rewrite rsplit1_last_cons_sep.
      destruct cur; [done|]. by apply last_cons_is_Some.
    + rewrite (IH (cur ++ [c])).
      * by rewrite <- app_assoc.
      * intros c' [Hin | ->%list_elem_of_singleton]%elem_of_app;
          [by apply Hcur | done].
      * intros c' Hin. apply Hs. by right.
      * by destruct cur.
      * by rewrite <- app_assoc.
Qed.

Lemma rsplit1_last_whitespace (s : str) :
  (forall c, c ∈ s -> isspace c = true -> c = 32) ->
  s <> [] ->
  last s <> Some 32 ->
  last (split_whitespace s) = Some (rsplit1_last 32 s).
Proof.
  intros Hs Hne Hlast.
  apply (rsplit1_last_whitespace_go [] s); try done.
  intros c Hin. inversion Hin.
Qed.

(* ===================================================================== *)
(** * The header line parser *)
(* ===================================================================== *)

Lemma resolve_status_spec (status : str) :
  resolve_status status =
    if bool_decide (ch "M" ∈ status) then Some MODIFY
    else if bool_decide (ch "C" ∈ status) then Some NEW
    else if bool_decide (ch "A" ∈ status) then Some NEW
    else if bool_decide (ch "T" ∈ status) then Some NEW
    else if bool_decide (ch "R" ∈ status) then Some RENAME
    else if bool_decide (ch "D" ∈ status) then Some DELETE
    else None.
Proof.
  unfold resolve_status.
  change (lit "M") with [ch "M"]. change (lit "C") with [ch "C"].
  change (lit "A") with [ch "A"]. change (lit "T") with [ch "T"].
  change (lit "R") with [ch "R"]. change (lit "D") with [ch "D"].
  by rewrite !contains_single_decide.
Qed.

Lemma parse_patch_header_line_unfold (line prefix name : str)
    (rest : list str) :
  split [NUL] (rstrip [NUL] line) = prefix :: name :: rest ->
  _parse_patch_header_line line =
    match resolve_status (status_of_prefix prefix) with
    | Some mode => inr (entry_name name rest, mode)
    | None =>
        inl (ValueError (lit "Can't parse header line " ++ line
                         ++ lit ": unknown status "
                         ++ status_of_prefix prefix))
    end.
Proof.
  intros H. unfold _parse_patch_header_line. by rewrite H.
Qed.

(** On a prefix as git prints it, the status letters are the last
    whitespace-separated token without its trailing digits. *)
Lemma status_of_prefix_last_token (prefix : str) :
  space_separated prefix ->
  exists token,
    last_whitespace_token prefix = Some token /\
    status_of_prefix prefix = rstrip (lit "0123456789") token.
Proof.
  intros (Hs & Hne & Hlast). exists (rsplit1_last 32 prefix).
  split; [|done]. by apply rsplit1_last_whitespace.
Qed.

(** C1. For a raw header line made of a prefix, a name and possibly more
    pieces, the status letters (what follows the last space of the prefix,
    trailing digits removed, which for a prefix as git prints it is its
    last whitespace-separated token without its digits) decide the change
    kind by first match: 'M' gives MODIFY, else 'C' gives NEW, else 'A'
    gives NEW, else 'T' gives NEW, else 'R' gives RENAME, else 'D' gives
    DELETE; in particular a status with 'M' and any other letters gives
    MODIFY. A status with none of the six letters raises a ValueError
    whose message quotes the line and the status. *)
Theorem parse_patch_header_line_precedence (line prefix name : str)
    (rest : list str) :
  split [NUL] (rstrip [NUL] line) = prefix :: name :: rest ->
  let status := status_of_prefix prefix in
  let result := _parse_patch_header_line line in
  let entry := entry_name name rest in
  (ch "M" ∈ status -> result = inr (entry, MODIFY)) /\
  (ch "M" ∉ status -> ch "C" ∈ status -> result = inr (entry, NEW)) /\
  (ch "M" ∉ status -> ch "C" ∉ status -> ch "A" ∈ status ->
     result = inr (entry, NEW)) /\
  (ch "M" ∉ status -> ch "C" ∉ status -> ch "A" ∉ status ->
   ch "T" ∈ status -> result = inr (entry, NEW)) /\
  (ch "M" ∉ status -> ch "C" ∉ status -> ch "A" ∉ status ->
   ch "T" ∉ status -> ch "R" ∈ status -> result = inr (entry, RENAME)) /\
  (ch "M" ∉ status -> ch "C" ∉ status -> ch "A" ∉ status ->
   ch "T" ∉ status -> ch "R" ∉ status -> ch "D" ∈ status ->
     result = inr (entry, DELETE)) /\
  (ch "M" ∉ status -> ch "C" ∉ status -> ch "A" ∉ status ->
   ch "T" ∉ status -> ch "R" ∉ status -> ch "D" ∉ status ->
     result = inl (ValueError (lit "Can't parse header line " ++ line
                               ++ lit ": unknown status " ++ status))) /\
  (space_separated prefix ->
   exists token,
     last_whitespace_token prefix = Some token /\
     status = rstrip (lit "0123456789") token).
Proof.
  intros H status result entry. subst result.
  rewrite (parse_patch_header_line_unfold _ _ _ _ H), resolve_status_spec.
  fold status. fold entry.
  split_and!; try apply status_of_prefix_last_token; intros;
    repeat (first [ rewrite bool_decide_eq_true_2 by assumption
                  | rewrite bool_decide_eq_false_2 by assumption ]);
    reflexivity.
Qed.

(** The line [":100644 100644 sha1 sha2 M\0path"] yields
    [("path", MODIFY)]. *)
Lemma parse_patch_header_line_precedence_witness :
  _parse_patch_header_line
    (lit ":100644 100644 sha1 sha2 M" ++ [NUL] ++ lit "path")
  = inr (lit "path", MODIFY).
Proof.
  apply (proj1 (parse_patch_header_line_precedence
                  (lit ":100644 100644 sha1 sha2 M" ++ [NUL] ++ lit "path")
                  (lit ":100644 100644 sha1 sha2 M") (lit "path") []
                  eq_refl)).
  vm_compute. apply list_elem_of_In. simpl. tauto.
Defined.

(** A merge commit that reports a deletion for one parent and a
    modification for the other is a modification, in either order; a
    rename carries its score and yields the new name. *)
Example header_line_DM :
  _parse_patch_header_line
    (lit "::100644 100644 100644 a b c DM" ++ [NUL] ++ lit "f")
  = inr (lit "f", MODIFY).
Proof. reflexivity. Qed.

Example header_line_MD :
  _parse_patch_header_line
    (lit "::100644 100644 100644 a b c MD" ++ [NUL] ++ lit "f")
  = inr (lit "f", MODIFY).
Proof. reflexivity. Qed.

Example header_line_rename :
  _parse_patch_header_line
    (lit ":100644 100644 a b R086" ++ [NUL] ++ lit "old" ++ [NUL]
     ++ lit "new" ++ [NUL])
  = inr (lit "new", RENAME).
Proof. reflexivity. Qed.

Example header_line_unknown :
  _parse_patch_header_line (lit ":100644 100644 a b X" ++ [NUL] ++ lit "f")
  = inl (ValueError
           (lit "Can't parse header line "
            ++ (lit ":100644 100644 a b X" ++ [NUL] ++ lit "f")
            ++ lit ": unknown status X")).
Proof. reflexivity. Qed.

(** The status is read after the last space: a prefix that ends with a
    space, which git does not print, has an empty status. *)
Example header_line_trailing_space :
  _parse_patch_header_line (lit ":100644 100644 a b M " ++ [NUL] ++ lit "f")
  = inl (ValueError
           (lit "Can't parse header line "
            ++ (lit ":100644 100644 a b M " ++ [NUL] ++ lit "f")
            ++ lit ": unknown status ")).
Proof. reflexivity. Qed.

(** A line with a single piece fails at the unpacking. *)
Example header_line_one_piece :
  _parse_patch_header_line (lit ":100644 100644 a b M")
  = inl (ValueError
           (lit "not enough values to unpack (expected at least 2, got 1)")).
Proof. reflexivity. Qed.

(* ===================================================================== *)
(** * The text decoder *)
(* ===================================================================== *)

Lemma byte_of_to_N (b : byte) (n : N) (b' : byte) :
  Byte.to_N b = n -> Byte.of_N n = Some b' -> b = b'.
Proof.
  intros <-. rewrite Byte.of_to_N. congruence.
Qed.

Ltac bool_to_prop :=
  repeat match goal with
  | H : (_ && _) = true |- _ => apply andb_true_iff in H; destruct H
  | H : (_ && _) = false |- _ => apply andb_false_iff in H
  | H : (_ || _) = true |- _ => apply orb_true_iff in H
  | H : (_ || _) = false |- _ => apply orb_false_iff in H; destruct H
  | H : (_ <? _) = true |- _ => apply N.ltb_lt in H
  | H : (_ <? _) = false |- _ => apply N.ltb_ge in H
  | H : (_ <=? _) = true |- _ => apply N.leb_le in H
  | H : (_ <=? _) = false |- _ => apply N.leb_gt in H
  | H : (_ =? _) = true |- _ => apply N.eqb_eq in H
  | H : (_ =? _) = false |- _ => apply N.eqb_neq in H
  end.

Lemma is_cont_range (n : N) : is_cont n = true -> 0x80 <= n <= 0xBF.
Proof. unfold is_cont. intros H. bool_to_prop. lia. Qed.

Lemma second_ok3_range (n0 n1 : N) :
  second_ok3 n0 n1 = true -> 0x80 <= n1 <= 0xBF.
Proof.
  unfold second_ok3, is_cont. intros H.
  repeat case_match; bool_to_prop; lia.
Qed.

Lemma second_ok4_range (n0 n1 : N) :
  second_ok4 n0 n1 = true -> 0x80 <= n1 <= 0xBF.
Proof.
  unfold second_ok4, is_cont. intros H.
  repeat case_match; bool_to_prop; lia.
Qed.

(** The decoder produces U+FEFF first only from the three bytes of the
    byte-order mark. *)
Lemma utf8_decode_head_bom (raw : bytes) :
  head (utf8_decode raw) = Some U_BOM ->
  exists rest, raw = BOM_UTF8 ++ rest.
Proof.
  unfold U_BOM, BOM_UTF8.
  destruct raw as [|b0 t0]; [discriminate|].
  cbn [utf8_decode].
  pose proof (Byte.to_N_bounded b0) as B0.
  destruct (Byte.to_N b0 <? 0x80) eqn:E1.
  { intros [= H]. bool_to_prop. lia. }
  destruct ((0xC2 <=? Byte.to_N b0) && (Byte.to_N b0 <=? 0xDF)) eqn:E2.
  { destruct t0 as [|b1 t1]; [discriminate|].
    destruct (is_cont (Byte.to_N b1)) eqn:C1; [|discriminate].
    apply is_cont_range in C1. intros [= H]. bool_to_prop. lia. }
  destruct ((0xE0 <=? Byte.to_N b0) && (Byte.to_N b0 <=? 0xEF)) eqn:E3.
  { destruct t0 as [|b1 t1]; [discriminate|].
    destruct (second_ok3 (Byte.to_N b0) (Byte.to_N b1)) eqn:C1;
      [|discriminate].
    apply second_ok3_range in C1.
    destruct t1 as [|b2 t2]; [discriminate|].
    destruct (is_cont (Byte.to_N b2)) eqn:C2; [|discriminate].
    apply is_cont_range in C2. intros [= H]. bool_to_prop.
    assert (Byte.to_N b0 = 0xEF) as Hb0 by lia.
    assert (Byte.to_N b1 = 0xBB) as Hb1 by lia.
    assert (Byte.to_N b2 = 0xBF) as Hb2 by lia.
    exists t2. simpl.
    by rewrite (byte_of_to_N b0 _ xef Hb0 eq_refl),
               (byte_of_to_N b1 _ xbb Hb1 eq_refl),
               (byte_of_to_N b2 _ xbf Hb2 eq_refl). }
  destruct ((0xF0 <=? Byte.to_N b0) && (Byte.to_N b0 <=? 0xF4)) eqn:E4.
  { destruct t0 as [|b1 t1]; [discriminate|].
    destruct (second_ok4 (Byte.to_N b0) (Byte.to_N b1)) eqn:C1;
      [|discriminate].
    pose proof C1 as C1'. apply second_ok4_range in C1'.
    destruct t1 as [|b2 t2]; [discriminate|].
    destruct (is_cont (Byte.to_N b2)) eqn:C2; [|discriminate].
    apply is_cont_range in C2.
    destruct t2 as [|b3 t3]; [discriminate|].
    destruct (is_cont (Byte.to_N b3)) eqn:C3; [|discriminate].
    apply is_cont_range in C3. intros [= H].
    unfold second_ok4 in C1. bool_to_prop.
    destruct (Byte.to_N b0 =? 0xF0) eqn:F0; bool_to_prop; [lia|].
    lia. }
  discriminate.
Qed.

Lemma bytes_startswith_app (p rest : bytes) :
  bytes_startswith p (p ++ rest) = true.
Proof.
  induction p as [|a p IH]; simpl; [done|].
  by rewrite Byte.byte_dec_lb.
Qed.

Lemma bytes_startswith_inv (p raw : bytes) :
  bytes_startswith p raw = true -> exists rest, raw = p ++ rest.
Proof.
  revert raw. induction p as [|a p IH]; intros raw; simpl.
  - eauto.
  - destruct raw as [|b raw]; [discriminate|].
    intros [E H]%andb_true_iff. apply Byte.byte_dec_bl in E as ->.
    destruct (IH _ H) as [rest ->]. eauto.
Qed.

(** Decoding the mark itself gives the character U+FEFF: the decoder does
    not skip it. *)
Lemma utf8_decode_bom (rest : bytes) :
  utf8_decode (BOM_UTF8 ++ rest) = U_BOM :: utf8_decode rest.
Proof. reflexivity. Qed.

Section DecoderProperties.

Variable from_bytes_best : bytes -> option str.
Variable codecs_decode : str -> bytes -> str.

Local Abbreviation decode :=
  (_decode_bytes from_bytes_best codecs_decode).

(** C7. When the detection of the encoding fails, [_decode_bytes]
    returns the empty string and its only effect is one warning that
    names the file: it has no way to raise. *)
Theorem decode_bytes_undetected (raw : bytes) (filename : str)
    (w : World) :
  from_bytes_best raw = None ->
  decode raw filename w
  = ([], w ++ [LogWarning (lit "Skipping " ++ filename
                           ++ lit ", can't detect encoding")]).
Proof.
  intros H. unfold _decode_bytes. by rewrite H.
Qed.

Lemma decode_bytes_utf8_bom (raw : bytes) (filename : str) (w : World) :
  from_bytes_best raw = Some (lit "utf_8") ->
  bytes_startswith BOM_UTF8 raw = true ->
  decode raw filename w = (utf8_decode (drop 3 raw), w).
Proof.
  intros H B. unfold _decode_bytes, bytes_decode. rewrite H, B.
  by rewrite bool_decide_eq_true_2.
Qed.

(** C8, as amended. For a buffer detected as UTF-8 that begins with the
    byte-order mark, [_decode_bytes] removes the first three bytes, one
    mark, and decodes the rest; the text has no U+FEFF at position 0
    unless the rest begins with a mark of its own. *)
Theorem decode_bytes_strips_one_bom (raw : bytes) (filename : str)
    (w : World) :
  from_bytes_best raw = Some (lit "utf_8") ->
  bytes_startswith BOM_UTF8 raw = true ->
  decode raw filename w = (utf8_decode (drop 3 raw), w) /\
  (bytes_startswith BOM_UTF8 (drop 3 raw) = false ->
   head (fst (decode raw filename w)) <> Some U_BOM).
Proof.
  intros H B. split; [by apply decode_bytes_utf8_bom|].
  rewrite decode_bytes_utf8_bom by assumption. cbn [fst].
  intros NB Hd. apply utf8_decode_head_bom in Hd as [rest Hd].
  rewrite Hd, bytes_startswith_app in NB. discriminate.
Qed.

(** Conversely the text does begin with U+FEFF when a second mark follows
    the first. *)
Lemma decode_bytes_second_bom (raw : bytes) (filename : str) (w : World) :
  from_bytes_best raw = Some (lit "utf_8") ->
  bytes_startswith BOM_UTF8 raw = true ->
  bytes_startswith BOM_UTF8 (drop 3 raw) = true ->
  head (fst (decode raw filename w)) = Some U_BOM.
Proof.
  intros H B B2. rewrite decode_bytes_utf8_bom by assumption. cbn [fst].
  apply bytes_startswith_inv in B2 as [rest ->].
  by rewrite utf8_decode_bom.
Qed.

(** X22. A buffer detected as UTF-8 without a mark, or detected as
    something else (even when it begins with the three bytes of the
    mark), is decoded as it is, and nothing is logged. *)
Lemma decode_bytes_no_bom (raw : bytes) (encoding filename : str)
    (w : World) :
  from_bytes_best raw = Some encoding ->
  bytes_startswith BOM_UTF8 raw = false \/ encoding <> lit "utf_8" ->
  decode raw filename w = (bytes_decode codecs_decode encoding raw, w).
Proof.
  intros H D. unfold _decode_bytes. rewrite H.
  destruct D as [-> | D].
  - by rewrite andb_false_r.
  - by rewrite bool_decide_eq_false_2.
Qed.

End DecoderProperties.

(** A buffer no encoding is found for decodes to the empty text, with one
    warning. *)
Lemma decode_bytes_undetected_witness :
  _decode_bytes (fun _ => None) (fun _ _ => []) [xff; xfe; x00; x80]
    (lit "blob.bin") []
  = ([], [LogWarning (lit "Skipping blob.bin, can't detect encoding")]).
Proof.
  exact (decode_bytes_undetected (fun _ => None) (fun _ _ => [])
           [xff; xfe; x00; x80] (lit "blob.bin") [] eq_refl).
Defined.

(** The mark followed by ["hi"] decodes to ["hi"]. *)
Lemma decode_bytes_strips_one_bom_witness :
  _decode_bytes (fun _ => Some (lit "utf_8")) (fun _ _ => [])
    (BOM_UTF8 ++ [x68; x69]) (lit "a.txt") []
  = (lit "hi", []).
Proof.
  exact (proj1 (decode_bytes_strips_one_bom
                  (fun _ => Some (lit "utf_8")) (fun _ _ => [])
                  (BOM_UTF8 ++ [x68; x69]) (lit "a.txt") []
                  eq_refl eq_refl)).
Defined.

(** C8 as stated fails: a buffer detected as UTF-8 that begins with two
    marks is decoded, after one mark is removed, to a text that begins
    with U+FEFF. *)
Lemma decode_bytes_double_bom :
  let raw := BOM_UTF8 ++ BOM_UTF8 ++ [x68; x69] in
  let best := fun _ : bytes => Some (lit "utf_8") in
  let text := fst (_decode_bytes best (fun _ _ => []) raw (lit "a.txt") []) in
  best raw = Some (lit "utf_8") /\
  bytes_startswith BOM_UTF8 raw = true /\
  text = U_BOM :: lit "hi" /\
  ~ head text <> Some U_BOM.
Proof.
  cbv zeta. repeat split. intros H. by apply H.
Qed.

(* ===================================================================== *)
(** * File-backed scannables *)
(* ===================================================================== *)

Section FileProperties.

Variable from_bytes_best : bytes -> option str.
Variable codecs_decode : str -> bytes -> str.
Variable urlparse_path : str -> str.
Variable disk : str -> Exn + bytes.

Local Abbreviation is_longer_than := (File_is_longer_than urlparse_path disk).
Local Abbreviation content :=
  (File_content from_bytes_best codecs_decode urlparse_path disk).

(** While the content has not been read, the answer comes from the size
    of the file on the disk, and the file is not read: the only effect is
    the query of the size, and the content stays unread. *)
Lemma File_is_longer_than_unread (f : File) (size : Z) (w : World)
    (raw : bytes) :
  file_content f = None ->
  disk (urlparse_path (file_url f)) = inr raw ->
  is_longer_than f size w
  = (inr (size <? Z.of_nat (length raw))%Z,
     w ++ [StatFile (urlparse_path (file_url f))]).
Proof.
  intros C D. unfold File_is_longer_than, getsize, path. simpl.
  by rewrite C, D.
Qed.

(** Once a non-empty content has been read, the answer comes from the
    length of the decoded text, without any effect. *)
Lemma File_is_longer_than_read (f : File) (size : Z) (w : World)
    (c : str) :
  file_content f = Some c -> c <> [] ->
  is_longer_than f size w
  = (inr (size <? Z.of_nat (length c))%Z, w).
Proof.
  intros C N. unfold File_is_longer_than. rewrite C.
  by destruct c.
Qed.

(** A content that has been read and is empty is taken for a content not
    read yet: the answer comes from the size of the file on the disk. *)
Lemma File_is_longer_than_read_empty (f : File) (size : Z) (w : World)
    (raw : bytes) :
  file_content f = Some [] ->
  disk (urlparse_path (file_url f)) = inr raw ->
  is_longer_than f size w
  = (inr (size <? Z.of_nat (length raw))%Z,
     w ++ [StatFile (urlparse_path (file_url f))]).
Proof.
  intros C D. unfold File_is_longer_than, getsize, path. simpl.
  by rewrite C, D.
Qed.

(** The content is read once: the second access returns the same text
    and touches nothing. *)
Lemma File_content_idempotent (f f' : File) (w w' : World) (c : str) :
  content f w = (inr c, f', w') ->
  content f' w' = (inr c, f', w').
Proof.
  unfold File_content. destruct (file_content f) as [c0|] eqn:C.
  - intros [= -> -> ->]. by rewrite C.
  - destruct (disk _); [discriminate|].
    destruct (_decode_bytes _ _ _ _ _) as [c1 w1].
    by intros [= -> <- ->].
Qed.

End FileProperties.

(** C3, where the code departs from it. The file [bom.txt] holds the
    three bytes of the UTF-8 byte-order mark and nothing else: it is
    detected as UTF-8, the mark is removed and its content is the empty
    text. After that read, [is_longer_than(2)] still asks the disk for the
    size of the file and answers [True] (3 > 2), although the decoded
    text, of length 0, is not longer than 2. *)
Theorem File_is_longer_than_after_empty_read :
  let read :=
    File_content Sample.best_utf8 Sample.no_codec Sample.plain_path
      Sample.disk (File_init (lit "bom.txt")) [] in
  let f := snd (fst read) in
  let w := snd read in
  w = [ReadFile (lit "bom.txt")] /\
  fst (fst read) = inr [] /\
  file_content f = Some [] /\
  File_is_longer_than Sample.plain_path Sample.disk f 2 w
  = (inr true, w ++ [StatFile (lit "bom.txt")]) /\
  (2 <? Z.of_nat (length (default [] (file_content f))))%Z = false.
Proof.
  cbv zeta. repeat split.
Qed.

(** Before any read the size on the disk answers, and the file is not
    read. *)
Example File_is_longer_than_fresh :
  File_is_longer_than Sample.plain_path Sample.disk
    (File_init (lit "blob.bin")) 3 []
  = (inr true, [StatFile (lit "blob.bin")]).
Proof. reflexivity. Qed.

(* ===================================================================== *)
(** * File sets *)
(* ===================================================================== *)

Lemma filter_sublist {A} (f : A -> bool) (l : list A) :
  sublist (List.filter f l) l.
Proof.
  induction l as [|x l IH]; simpl; [constructor|].
  destruct (f x); by constructor.
Qed.

(** C9. [apply_filter] returns a new file set whose list holds the
    scannables of the receiver that satisfy the predicate, in the
    receiver's order; the new list is a new object, and the receiver's list
    and every other list of the store are what they were. *)
Theorem apply_filter_frame (self : FilesObj.Files)
    (filter_func : Scannable -> bool) (h : FilesObj.store)
    (l : list Scannable) :
  h !! FilesObj._files self = Some l ->
  let new := fst (FilesObj.apply_filter self filter_func h) in
  let h' := snd (FilesObj.apply_filter self filter_func h) in
  FilesObj.files new h' = List.filter filter_func l /\
  (forall x, x ∈ FilesObj.files new h' <-> x ∈ l /\ filter_func x = true) /\
  sublist (FilesObj.files new h') l /\
  FilesObj._files new <> FilesObj._files self /\
  FilesObj.files self h' = l /\
  length (FilesObj.files self h') = length (FilesObj.files self h) /\
  (forall r, is_Some (h !! r) -> h' !! r = h !! r).
Proof.
  intros Hl new h'. subst new h'.
  unfold FilesObj.apply_filter, FilesObj.new_list, FilesObj.files.
  cbn [fst snd FilesObj._files FilesObj.Files_init].
  pose proof (is_fresh (dom h)) as Hfresh.
  assert (fresh (dom h) <> FilesObj._files self) as Hne.
  { intros E. apply Hfresh. rewrite E. apply elem_of_dom. by eexists. }
  rewrite lookup_insert_eq, (lookup_insert_ne _ _ _ _ Hne), Hl.
  cbn [default].
  split_and!; try done.
  - intros x. split.
    + intros Hx%list_elem_of_In%filter_In. by rewrite list_elem_of_In.
    + intros [Hx%list_elem_of_In Hf]. by apply list_elem_of_In, filter_In.
  - apply filter_sublist.
  - intros r Hr. apply lookup_insert_ne. intros E. apply Hfresh.
    rewrite E. by apply elem_of_dom.
Qed.

(** Filtering a set of two scannables by size keeps the small one and
    leaves the set with its two scannables. *)
Lemma apply_filter_frame_witness :
  let self := FilesObj.Files_init 1%positive in
  let h : FilesObj.store := {[ 1%positive := [Sample.large; Sample.small] ]} in
  let new := fst (FilesObj.apply_filter self Sample.at_most_4 h) in
  let h' := snd (FilesObj.apply_filter self Sample.at_most_4 h) in
  FilesObj.files new h' = [Sample.small] /\
  FilesObj.files self h' = [Sample.large; Sample.small].
Proof.
  cbv zeta.
  pose proof (apply_filter_frame (FilesObj.Files_init 1%positive)
                Sample.at_most_4
                {[ 1%positive := [Sample.large; Sample.small] ]}
                [Sample.large; Sample.small] eq_refl) as H.
  cbv zeta in H.
  destruct H as (H1 & _ & _ & _ & H2 & _).
  split; [exact H1 | exact H2].
Defined.

(* ===================================================================== *)
(** * Generators *)
(* ===================================================================== *)



(** A step that would raise after the list is exhausted is never run. *)
Lemma zip_gen_unreached {A B} (xs : list A) (g : Steps A) (l : list B) :
  (length l < length xs)%nat ->
  zip_gen (List.map inr xs ++ g) l = (zip xs l, None).
Proof.
  revert l. induction xs as [|x xs IH]; intros l Hlen; simpl in *; [lia|].
  destruct l as [|b l]; [done|]. simpl in Hlen.
  rewrite IH by lia. done.
Qed.


Lemma length_omap_le {A B} (f : A -> option B) (l : list A) :
  (length (omap f l) <= length l)%nat.
Proof.
  induction l as [|x l IH]; csimpl; [done|].
  destruct (f x); csimpl; lia.
Qed.

(** If one of the generators run in sequence raises, so does the
    sequence. *)
Lemma gen_concat_raises {A} (gs : list (Gen A)) (xs : list A) (e : Exn) :
  (xs, Some e) ∈ gs -> exists ys e', gen_concat gs = (ys, Some e').
Proof.
  induction gs as [|[ys [e'|]] gs IH]; intros Hin.
  - inversion Hin.
  - simpl. eauto.
  - apply elem_of_cons in Hin as [[=] | Hin].
    destruct (IH Hin) as (zs & e' & Hc). simpl. rewrite Hc. eauto.
Qed.

(** The first generator of a sequence that raises decides the exception. *)
Lemma gen_concat_first_raise {A} (gs : list (Gen A)) (xs : list A)
    (e : Exn) (gs' : list (Gen A)) :
  gen_concat (gs ++ (xs, Some e) :: gs')
  = (match gen_concat gs with
     | (ys, None) => (ys ++ xs, Some e)
     | r => r
     end).
Proof.
  induction gs as [|[ys [e'|]] gs IH]; simpl; [done | done |].
  rewrite IH. destruct (gen_concat gs) as [zs [e'|]]; [done|].
  by rewrite app_assoc.
Qed.

(* ===================================================================== *)
(** * The patch parser *)
(* ===================================================================== *)

(** A header that starts with a colon (a [git diff], without commit
    information) keeps its first line. *)
Example parse_patch_header_diff :
  _parse_patch_header
    (lit ":100644 100644 aaaa bbbb M" ++ [NUL] ++ lit "a.txt" ++ [NUL]
     ++ lit ":100644 000000 cccc 0000 D" ++ [NUL] ++ lit "b.txt" ++ [NUL])
  = [inr (lit "a.txt", MODIFY); inr (lit "b.txt", DELETE)].
Proof. reflexivity. Qed.

Example parse_patch_header_show :
  _parse_patch_header Sample.header_two
  = [inr (lit "a.txt", MODIFY); inr (lit "b.txt", DELETE)].
Proof. reflexivity. Qed.

(** A header with a line of unknown status: the lines before it are
    yielded, then the step of that line raises. *)
Example parse_patch_header_unknown :
  _parse_patch_header
    (lit ":100644 100644 aaaa bbbb M" ++ [NUL] ++ lit "a.txt" ++ [NUL]
     ++ Sample.unknown_line)
  = [inr (lit "a.txt", MODIFY);
     inl (ValueError (lit "Can't parse header line " ++ Sample.unknown_line
                      ++ lit ": unknown status X"))].
Proof. reflexivity. Qed.


(** An exception of the loop is the one its generator ends with or one
    its body raised on an item. *)
Lemma for_yield_raises {A B} (body : A -> option (Exn + B))
    (items : list A) (final : option Exn) (e : Exn) :
  snd (for_yield body items final) = Some e ->
  final = Some e \/ exists item, item ∈ items /\ body item = Some (inl e).
Proof.
  induction items as [|item items IH]; simpl; [by left|].
  destruct (body item) as [[e'|y]|] eqn:Hb; simpl.
  - intros [= ->]. right. exists item. split; [left | done].
  - destruct (for_yield body items final) as [ys e'']. simpl in *.
    intros [-> | (it & Hin & Hit)]%IH; [by left|].
    right. exists it. split; [by right | done].
  - intros [-> | (it & Hin & Hit)]%IH; [by left|].
    right. exists it. split; [by right | done].
Qed.


(** What the loop yields was yielded by its body on an item. *)
Lemma for_yield_elem {A B} (body : A -> option (Exn + B))
    (items : list A) (final : option Exn) (y : B) :
  y ∈ fst (for_yield body items final) ->
  exists item, item ∈ items /\ body item = Some (inr y).
Proof.
  induction items as [|item items IH]; simpl.
  - intros H. inversion H.
  - destruct (body item) as [[e'|y']|] eqn:Hb; simpl.
    + intros H. inversion H.
    + destruct (for_yield body items final) as [ys e'']. simpl in *.
      intros [-> | Hin]%elem_of_cons.
      * exists item. split; [left | done].
      * destruct (IH Hin) as (it & Hit & Hy).
        exists it. split; [by right | done].
    + intros Hin. destruct (IH Hin) as (it & Hit & Hy).
      exists it. split; [by right | done].
Qed.

(** When the body raises on no item, the loop yields what the body
    yields, item after item, and ends as its generator. *)
Lemma for_yield_pure {A B} (body : A -> option (Exn + B))
    (pure : A -> option B) (items : list A) (final : option Exn) :
  Forall (fun item => body item = inr <$> pure item) items ->
  for_yield body items final = (omap pure items, final).
Proof.
  induction 1 as [|item items Hb _ IH]; [done|].
  simpl. rewrite Hb, IH. by destruct (pure item).
Qed.

Section PatchProperties.

Variable Patterns : Type.
Variable is_filepath_excluded : str -> Patterns -> bool.
Variable urlparse_raises : str -> option Exn.

Local Abbreviation section :=
  (parse_section is_filepath_excluded urlparse_raises).
Local Abbreviation of_pair :=
  (scannable_of_pair is_filepath_excluded urlparse_raises).
Local Abbreviation hunk := (hunk_of_pair is_filepath_excluded).

(** The scannable a pair gives is under the name of the pair. *)
Lemma hunk_of_pair_url (excl : Patterns) (name : str) (mode : Filemode)
    (diff : str) (x : Scannable) :
  hunk excl ((name, mode), diff) = Some x -> url x = name.
Proof.
  unfold hunk_of_pair.
  destruct (is_filepath_excluded name excl); [discriminate|].
  destruct (find _ diff); [|discriminate]. by intros [= <-].
Qed.

(** The body of the loop raises only what [urlparse] raises on the name
    of the pair. *)
Lemma scannable_of_pair_raises (excl : Patterns) (name : str)
    (mode : Filemode) (diff : str) (e : Exn) :
  of_pair excl ((name, mode), diff) = Some (inl e) ->
  urlparse_raises name = Some e.
Proof.
  unfold scannable_of_pair, Scannable_init.
  destruct (hunk excl _) as [x|] eqn:Hx; [|discriminate].
  rewrite (hunk_of_pair_url _ _ _ _ _ Hx).
  destruct (urlparse_raises name); [by intros [= ->] | discriminate].
Qed.

(** On a name [urlparse] accepts, the body of the loop builds the
    scannable of the pair, if there is one. *)
Lemma scannable_of_pair_accepted (excl : Patterns) (name : str)
    (mode : Filemode) (diff : str) :
  urlparse_raises name = None ->
  of_pair excl ((name, mode), diff) = inr <$> hunk excl ((name, mode), diff).
Proof.
  intros Hn. unfold scannable_of_pair, Scannable_init.
  destruct (hunk excl _) as [x|] eqn:Hx; [|done].
  by rewrite (hunk_of_pair_url _ _ _ _ _ Hx), Hn.
Qed.

Lemma scannable_of_pairs_accepted (excl : Patterns)
    (entries : list (str * Filemode)) (diffs : list str) :
  Forall (fun entry => urlparse_raises entry.1 = None) entries ->
  Forall (fun pair => of_pair excl pair = inr <$> hunk excl pair)
         (zip entries diffs).
Proof.
  intros Hall. apply Forall_forall. intros [[name mode] diff] Hin.
  apply scannable_of_pair_accepted.
  apply elem_of_zip_l in Hin. rewrite Forall_forall in Hall.
  by apply (Hall (name, mode)).
Qed.



(** C10. On the empty string the header parser raises an IndexError at
    its first step instead of yielding nothing; a commit section whose
    text before the first diff marker is empty therefore raises, and so
    does the parse of any patch that has such a section. *)
Theorem parse_patch_header_empty (excl : Patterns) (patch rest : str) :
  (NUL :: lit "diff ") ++ rest ∈ split (NUL :: lit "commit ") patch ->
  _parse_patch_header []
  = [inl (IndexError (lit "string index out of range"))] /\
  _parse_patch_header [] <> [] /\
  parse_commit is_filepath_excluded urlparse_raises excl
    ((NUL :: lit "diff ") ++ rest)
  = ([], Some (IndexError (lit "string index out of range"))) /\
  exists xs e,
    _parse_patch is_filepath_excluded urlparse_raises patch excl
    = (xs, Some e).
Proof.
  intros Hin. split_and!; [done | done | |].
  - unfold parse_commit. by rewrite split_once_prefix.
  - unfold _parse_patch.
    apply (gen_concat_raises _ []
             (IndexError (lit "string index out of range"))).
    apply list_elem_of_In, in_map_iff.
    exists ((NUL :: lit "diff ") ++ rest). split.
    + unfold parse_commit. by rewrite split_once_prefix.
    + by apply list_elem_of_In.
Qed.

End PatchProperties.



(** A patch that begins with the diff marker fails to parse. *)
Lemma parse_patch_header_empty_witness :
  exists xs e,
    _parse_patch Sample.not_excluded Sample.urlparse_raises
      Sample.patch_no_header tt
    = (xs, Some e).
Proof.
  assert ((NUL :: lit "diff ")
            ++ (lit "--git a/a.txt b/a.txt" ++ [LF]
                ++ lit "@@ -1 +1 @@" ++ [LF] ++ lit "-old" ++ [LF]
                ++ lit "+new" ++ [LF])
          ∈ split (NUL :: lit "commit ") Sample.patch_no_header) as Hin
    by (vm_compute; apply list_elem_of_here).
  exact (proj2 (proj2 (proj2
           (parse_patch_header_empty unit Sample.not_excluded
              Sample.urlparse_raises tt Sample.patch_no_header _ Hin)))).
Defined.

Example parse_patch_no_header :
  _parse_patch Sample.not_excluded Sample.urlparse_raises
    Sample.patch_no_header tt
  = ([], Some (IndexError (lit "string index out of range"))).
Proof. reflexivity. Qed.

Example parse_patch_one_file :
  _parse_patch Sample.not_excluded Sample.urlparse_raises
    Sample.patch_one_file tt
  = ([OfString {| ss_url := lit "a.txt"; ss_filemode := MODIFY;
                  ss_content := lit "@@ -1 +1 @@" ++ [LF] ++ lit "-old"
                                ++ [LF] ++ lit "+new" ++ [LF] |}],
     None).
Proof. reflexivity. Qed.

(** A diff without hunk marker yields no scannable. *)
Example parse_section_no_hunk :
  parse_section Sample.not_excluded Sample.urlparse_raises tt
    Sample.header_two
    (lit "--git a/a.txt b/a.txt" ++ [LF] ++ lit "old mode 100644" ++ [LF]
     ++ lit "new mode 100755" ++ [LF])
  = ([], None).
Proof. reflexivity. Qed.

(* ===================================================================== *)
(** * Commits *)
(* ===================================================================== *)

Lemma git_calls_app (w w' : World) :
  git_calls (w ++ w') = (git_calls w + git_calls w')%nat.
Proof. unfold git_calls. by rewrite List.filter_app, length_app. Qed.

Lemma patch_parses_app (w w' : World) :
  patch_parses (w ++ w') = (patch_parses w + patch_parses w')%nat.
Proof. unfold patch_parses. by rewrite List.filter_app, length_app. Qed.

Section CommitProperties.

Variable Patterns : Type.
Variable is_filepath_excluded : str -> Patterns -> bool.
Variable urlparse_raises : str -> option Exn.
Variable git : list str -> World -> Exn + str.
Variable REGEX_HEADER_INFO_search : str -> option CommitInformation.

Local Abbreviation Commit := (Commit Patterns).
Local Abbreviation patch := (patch git).
Local Abbreviation get_files :=
  (get_files is_filepath_excluded urlparse_raises git).
Local Abbreviation files :=
  (files is_filepath_excluded urlparse_raises git).
Local Abbreviation info := (info git REGEX_HEADER_INFO_search).
Local Abbreviation run_access :=
  (run_access is_filepath_excluded urlparse_raises git
     REGEX_HEADER_INFO_search).
Local Abbreviation run_accesses :=
  (run_accesses is_filepath_excluded urlparse_raises git
     REGEX_HEADER_INFO_search).

(** ** The patch text *)

(** A patch already fetched is returned as it is, without any effect. *)
Lemma patch_cached (c : Commit) (w : World) (p : str) :
  _patch c = Some p -> patch c w = (inr p, c, w).
Proof. intros H. unfold patch. by rewrite H. Qed.

(** The first access runs git once, with the arguments of the revision,
    and keeps the text when git succeeds. *)
Lemma patch_fetch (c : Commit) (w : World) :
  _patch c = None ->
  patch c w
  = match git (git_args c) w with
    | inr p => (inr p, set_patch c p, w ++ [GitCall (git_args c)])
    | inl e => (inl e, c, w ++ [GitCall (git_args c)])
    end.
Proof. intros H. unfold patch. by rewrite H. Qed.

(** An access to the patch changes nothing of the commit but the patch
    text. *)
Lemma patch_frame (c c' : Commit) (w w' : World) (r : Exn + str) :
  patch c w = (r, c', w') ->
  sha c' = sha c /\ _files c' = _files c /\
  exclusion_regexes c' = exclusion_regexes c /\ _info c' = _info c.
Proof.
  unfold patch. destruct (_patch c).
  - by intros [= _ <- _].
  - destruct (git _ _); by intros [= _ <- _].
Qed.

(** ** Failure of the parse *)

(** C2. When the patch parser raises, whatever it yielded before,
    [get_files] ends with one [PatchParseError] whose message gives the
    revision and the text of the exception raised; the [files] property
    then raises that error and the list of files of the commit stays
    empty. *)
Theorem get_files_wraps_parse_failure (c c1 : Commit) (w w1 : World)
    (p : str) (xs : list Scannable) (exc : Exn) :
  patch c w = (inr p, c1, w1) ->
  _parse_patch is_filepath_excluded urlparse_raises p (exclusion_regexes c)
  = (xs, Some exc) ->
  let err :=
    PatchParseError (lit "Could not parse patch (sha: "
                     ++ str_of_option (sha c) ++ lit "): "
                     ++ str_of_exn exc) in
  get_files c w = ((xs, Some err), c1, w1 ++ [ParsePatch p]) /\
  (_files c = [] ->
   fst (fst (files c w)) = inl err /\
   _files (snd (fst (files c w))) = []).
Proof.
  intros Hp Hparse err.
  destruct (patch_frame _ _ _ _ _ Hp) as (Hsha & Hfiles & Hexcl & _).
  assert (get_files c w = ((xs, Some err), c1, w1 ++ [ParsePatch p]))
    as Hg.
  { unfold get_files. rewrite Hp, Hexcl, Hparse. done. }
  split; [exact Hg|].
  intros Hempty. unfold files. rewrite Hempty. cbn [truthy_list negb].
  rewrite Hg. cbn. by rewrite Hfiles.
Qed.

(** X19. A failure of git itself is wrapped in the same way: when the
    access to the patch raises, [get_files] yields nothing and ends with a
    [PatchParseError] whose message gives the revision and the message of
    git's exception; the parser does not run. *)
Lemma get_files_wraps_git_failure (c c1 : Commit) (w w1 : World)
    (exc : Exn) :
  patch c w = (inl exc, c1, w1) ->
  get_files c w
  = (([], Some (PatchParseError (parse_error_message c exc))), c1, w1).
Proof.
  intros Hp. unfold get_files. by rewrite Hp.
Qed.

(** ** The list of files *)

(** A non-empty list of files is returned as it is, without any
    effect. *)
Lemma files_cached (c : Commit) (w : World) :
  _files c <> [] -> files c w = (inr (_files c), c, w).
Proof.
  intros H. unfold files. by destruct (_files c).
Qed.

(** What an access that returns leaves in the commit. *)
Lemma files_returns (c c' : Commit) (w w' : World)
    (fs : list Scannable) :
  files c w = (inr fs, c', w') -> _files c' = fs.
Proof.
  unfold files. destruct (_files c) as [|x l] eqn:E; cbn.
  - destruct (get_files c w) as [[g c1] w1].
    destruct (list_of_gen g); [discriminate|].
    by intros [= <- <- _].
  - intros [= <- <- _]. done.
Qed.

(** X20. After an access that returned a non-empty list, every access
    returns that list and neither the parser nor git runs again. *)
Lemma files_memoized_nonempty (c c' : Commit) (w w' w2 : World)
    (fs : list Scannable) :
  files c w = (inr fs, c', w') -> fs <> [] ->
  files c' w2 = (inr fs, c', w2).
Proof.
  intros H Hne. apply files_returns in H. subst fs.
  by apply files_cached.
Qed.

(** After an access that returned the empty list, the next access runs
    the parser again, on the patch kept by the commit. *)
Lemma files_reparsed_when_empty (c c' : Commit) (w w' w2 : World)
    (p : str) :
  files c w = (inr [], c', w') -> _patch c' = Some p ->
  snd (files c' w2) = w2 ++ [ParsePatch p].
Proof.
  intros H Hp. apply files_returns in H.
  unfold files, get_files. rewrite H. cbn [truthy_list negb].
  rewrite (patch_cached _ _ _ Hp).
  destruct (_parse_patch _ _ _ _) as [xs [e|]]; done.
Qed.

(** X21. On a commit, [apply_filter] goes through the [files] property:
    it returns the filtered list and leaves in the commit the list that
    property returned, parsed on the way if need be. *)
Lemma Commit_apply_filter_files (c c' : Commit) (w w' : World)
    (fs : list Scannable) (filter_func : Scannable -> bool) :
  files c w = (inr fs, c', w') ->
  Commit_apply_filter is_filepath_excluded urlparse_raises git c filter_func w
  = (inr (List.filter filter_func fs), c', w') /\
  _files c' = fs.
Proof.
  intros H. split; [|by apply files_returns in H].
  unfold Commit_apply_filter. by rewrite H.
Qed.

(** ** One git process per commit *)

(** Once the patch is kept by the commit, no access runs git: each
    leaves the patch in place, and every access to the patch returns
    it. *)
Lemma run_access_steady (a : Access) (c c' : Commit) (w w' : World)
    (t : str) (o : Outcome) :
  _patch c = Some t ->
  run_access a c w = (o, c', w') ->
  _patch c' = Some t /\ git_calls w' = git_calls w /\
  (forall r, o = PatchOutcome r -> r = inr t).
Proof.
  intros Hp. destruct a; unfold run_access.
  - rewrite (patch_cached _ _ _ Hp). intros [= <- <- <-].
    split_and!; [done | done |]. by intros r [= <-].
  - unfold files, get_files. rewrite (patch_cached _ _ _ Hp).
    destruct (_files c) as [|x l]; cbn [truthy_list negb].
    + destruct (_parse_patch _ _ _ _) as [xs [e|]]; cbn;
        intros [= <- <- <-]; (split_and!; [done | | done]);
        rewrite git_calls_app; cbn; lia.
    + by intros [= <- <- <-].
  - unfold info. rewrite (patch_cached _ _ _ Hp).
    destruct (_info c); by intros [= <- <- <-].
Qed.

Lemma run_accesses_steady (l : list Access) (c c' : Commit)
    (w w' : World) (t : str) (os : list Outcome) :
  _patch c = Some t ->
  run_accesses l c w = (os, c', w') ->
  _patch c' = Some t /\ git_calls w' = git_calls w /\
  (forall r, PatchOutcome r ∈ os -> r = inr t).
Proof.
  revert c w c' w' os.
  induction l as [|a l IH]; intros c w c' w' os Hp; cbn.
  - intros [= <- <- <-]. split_and!; [done | done |].
    intros r Hr. inversion Hr.
  - destruct (run_access a c w) as [[o c1] w1] eqn:Ha.
    destruct (run_accesses l c1 w1) as [[os1 c2] w2] eqn:Hl.
    intros [= <- <- <-].
    destruct (run_access_steady _ _ _ _ _ _ _ Hp Ha) as (Hp1 & Hg1 & Ho).
    destruct (IH _ _ _ _ _ Hp1 Hl) as (Hp2 & Hg2 & Hos).
    split_and!; [done | lia |].
    intros r [E | Hr]%elem_of_cons; [by apply Ho | by apply Hos].
Qed.

(** The first access to a new commit, whichever property it goes
    through, runs git once and keeps the text. *)
Lemma run_access_first (a : Access) (sha0 : option str) (excl : Patterns)
    (c' : Commit) (w w' : World) (t : str) (o : Outcome) :
  git (git_args (Commit_init sha0 excl)) w = inr t ->
  run_access a (Commit_init sha0 excl) w = (o, c', w') ->
  _patch c' = Some t /\ git_calls w' = S (git_calls w) /\
  (forall r, o = PatchOutcome r -> r = inr t).
Proof.
  intros Hg. destruct a; unfold run_access.
  - rewrite patch_fetch by done. rewrite Hg. intros [= <- <- <-].
    split_and!; [done | rewrite git_calls_app; cbn; lia |].
    by intros r [= <-].
  - unfold files, get_files. cbn [_files Commit_init truthy_list negb].
    rewrite patch_fetch by done. rewrite Hg.
    destruct (_parse_patch _ _ _ _) as [xs [e|]]; cbn;
      intros [= <- <- <-]; (split_and!; [done | | done]);
      rewrite !git_calls_app; cbn; lia.
  - unfold info. cbn [_info Commit_init].
    rewrite patch_fetch by done. rewrite Hg. intros [= <- <- <-].
    split_and!; [done | rewrite git_calls_app; cbn; lia | done].
Qed.

(** C5. When git answers with a text, any sequence of one or more
    accesses to a new commit, to its patch, its files or its
    information, runs git exactly once, and every access to the patch
    returns that text. *)
Theorem patch_fetched_once (l : list Access) (sha0 : option str)
    (excl : Patterns) (w : World) (t : str) :
  l <> [] ->
  git (git_args (Commit_init sha0 excl)) w = inr t ->
  let run := run_accesses l (Commit_init sha0 excl) w in
  git_calls (snd run) = S (git_calls w) /\
  _patch (snd (fst run)) = Some t /\
  (forall r, PatchOutcome r ∈ fst (fst run) -> r = inr t).
Proof.
  intros Hl Hg run. subst run. destruct l as [|a l]; [done|]. simpl.
  destruct (run_access a _ w) as [[o c1] w1] eqn:Ha.
  destruct (run_accesses l c1 w1) as [[os c2] w2] eqn:Hr. simpl.
  destruct (run_access_first _ _ _ _ _ _ _ _ Hg Ha) as (Hp1 & Hg1 & Ho).
  destruct (run_accesses_steady _ _ _ _ _ _ _ Hp1 Hr) as (Hp2 & Hg2 & Hos).
  split_and!; [lia | done |].
  intros r [E | Hin]%elem_of_cons; [by apply Ho | by apply Hos].
Qed.

End CommitProperties.

(** A commit whose patch has the unknown status letter [X]: the access to
    its files raises one error that names the revision and quotes the
    line, and the commit keeps no file. *)
Lemma get_files_wraps_parse_failure_witness :
  let c := Commit_init (Some (lit "1234")) tt in
  let git := Sample.git_prints Sample.patch_unknown_status in
  let r := files Sample.not_excluded Sample.urlparse_raises git c [] in
  fst (fst r)
  = inl (PatchParseError
           (lit "Could not parse patch (sha: 1234): Can't parse header line "
            ++ Sample.unknown_line ++ lit ": unknown status X")) /\
  _files (snd (fst r)) = [].
Proof.
  exact (proj2 (get_files_wraps_parse_failure unit
      Sample.not_excluded Sample.urlparse_raises
                  (Sample.git_prints Sample.patch_unknown_status)
                  (Commit_init (Some (lit "1234")) tt)
                  (set_patch (Commit_init (Some (lit "1234")) tt)
                     Sample.patch_unknown_status)
                  []
                  [GitCall (git_args (Commit_init (Some (lit "1234")) tt))]
                  Sample.patch_unknown_status []
                  (ValueError (lit "Can't parse header line "
                               ++ Sample.unknown_line
                               ++ lit ": unknown status X"))
                  eq_refl eq_refl)
           eq_refl).
Defined.

(** Four accesses to a new commit, two of them to its files, with a git
    whose output would differ from one call to the next: git runs once. *)
Lemma patch_fetched_once_witness :
  let run :=
    run_accesses Sample.not_excluded Sample.urlparse_raises
        Sample.git_counting Sample.no_info
      [AccessFiles; AccessFiles; AccessPatch; AccessInfo]
      (Commit_init (Some (lit "1234")) tt) [] in
  git_calls (snd run) = 1%nat /\
  _patch (snd (fst run)) = Some [] /\
  (forall r, PatchOutcome r ∈ fst (fst run) -> r = inr []).
Proof.
  exact (patch_fetched_once unit Sample.not_excluded Sample.urlparse_raises
      Sample.git_counting
           Sample.no_info
           [AccessFiles; AccessFiles; AccessPatch; AccessInfo]
           (Some (lit "1234")) tt [] []
           ltac:(discriminate) eq_refl).
Defined.

(** Nothing is kept of a git that fails: the next access runs it again. *)
Example patch_failed_fetch_retried :
  let run :=
    run_accesses Sample.not_excluded Sample.urlparse_raises
        Sample.git_fails Sample.no_info
      [AccessPatch; AccessPatch] (Commit_init (Some (lit "1234")) tt) [] in
  fst (fst run)
  = [PatchOutcome (inl (ExternalError (lit "fatal: bad object")));
     PatchOutcome (inl (ExternalError (lit "fatal: bad object")))] /\
  git_calls (snd run) = 2%nat.
Proof.
  cbv zeta. repeat split.
Qed.

(** The arguments given to git: [show] for a revision, the staged diff
    when there is none (or when its name is empty). *)
Example git_args_revision :
  git_args (Commit_init (Some (lit "1234")) tt)
  = [lit "show"; lit "1234"; lit "--raw"; lit "-z"; lit "--patch"; lit "-m"].
Proof. reflexivity. Qed.

Example git_args_staged :
  git_args (Commit_init None tt)
  = [lit "diff"; lit "--cached"; lit "--raw"; lit "-z"; lit "--patch";
     lit "-m"].
Proof. reflexivity. Qed.

(** C4, where the code departs from it. With nothing staged, git prints
    nothing and the commit has no file: the first access to [files]
    returns the empty list after one run of the parser, and the second
    access runs the parser again (git is not run again). *)
Theorem files_reparsed_on_empty_commit :
  let git := Sample.git_prints [] in
  let first := files Sample.not_excluded Sample.urlparse_raises
      git (Commit_init None tt) [] in
  let second :=
    files Sample.not_excluded Sample.urlparse_raises
        git (snd (fst first)) (snd first) in
  fst (fst first) = inr [] /\
  fst (fst second) = inr [] /\
  patch_parses (snd first) = 1%nat /\
  patch_parses (snd second) = 2%nat /\
  git_calls (snd second) = 1%nat.
Proof.
  cbv zeta. repeat split.
Qed.

(** A commit with a file is parsed once: the second access to [files]
    returns the list kept by the commit and the log does not grow. *)
Example files_parsed_once_one_file :
  let git := Sample.git_prints Sample.patch_one_file in
  let first :=
    files Sample.not_excluded Sample.urlparse_raises
        git (Commit_init (Some (lit "1234")) tt) [] in
  let second :=
    files Sample.not_excluded Sample.urlparse_raises
        git (snd (fst first)) (snd first) in
  fst (fst second) = fst (fst first) /\
  snd second = snd first /\
  patch_parses (snd second) = 1%nat.
Proof.
  cbv zeta. repeat split.
Qed.

(* ===================================================================== *)
(** * Further properties of the header parser *)
(* ===================================================================== *)

Lemma rstrip_app_stripped (chars s t : str) :
  Forall (fun c => existsb (N.eqb c) chars = true) t ->
  rstrip chars (s ++ t) = rstrip chars s.
Proof.
  intros Ht. unfold rstrip. rewrite foldr_app. f_equal.
  induction Ht as [|c t Hc _ IH]; [done|].
  simpl. by rewrite IH, Hc.
Qed.

Lemma existsb_eqb_elem_of (c : char) (s : str) :
  existsb (N.eqb c) s = true <-> c ∈ s.
Proof.
  rewrite existsb_exists, list_elem_of_In. split.
  - by intros (x & Hx & ->%N.eqb_eq).
  - intros H. exists c. split; [done | apply N.eqb_refl].
Qed.

Lemma existsb_eqb_app_r (c : char) (a b : str) :
  c ∉ b -> existsb (N.eqb c) (a ++ b) = existsb (N.eqb c) a.
Proof.
  intros Hb. rewrite existsb_app.
  match goal with |- _ || ?x = _ => destruct x eqn:E end.
  - by apply existsb_eqb_elem_of in E.
  - apply orb_false_r.
Qed.

Lemma rsplit1_last_app_no_sep (sep : char) (a b : str) :
  sep ∉ b -> rsplit1_last sep (a ++ b) = rsplit1_last sep a ++ b.
Proof.
  intros Hb. induction a as [|c a IH].
  - by apply rsplit1_last_no_sep.
  - simpl. rewrite (existsb_eqb_app_r _ _ _ Hb).
    destruct (existsb (N.eqb sep) a); [done|].
    by destruct (c =? sep).
Qed.

(** The piece of a text that does not hold the separator is the text. *)
Lemma split_single_no_sep (c : char) (prev : option char) (cur s : str) :
  c ∉ s -> split_go (m_literal [c]) prev 0 cur s = [cur ++ s].
Proof.
  revert prev cur. induction s as [|x s IH]; intros prev cur Hs.
  - by rewrite app_nil_r.
  - apply not_elem_of_cons in Hs as [Hx Hs]. simpl.
    unfold m_literal at 1. simpl.
    destruct (N.eqb_spec c x) as [->|_]; [done|]. simpl.
    rewrite IH by done. by rewrite <- app_assoc.
Qed.

(** A pattern that does not look at the character before the position
    splits the same whatever that character is. *)
Lemma split_go_prev_irrelevant (m : matcher) (p1 p2 : option char)
    (skip : nat) (cur s : str) :
  (forall q1 q2 t, m q1 t = m q2 t) ->
  split_go m p1 skip cur s = split_go m p2 skip cur s.
Proof.
  intros Hm. destruct s as [|c s]; [done|]. simpl.
  destruct skip; [|done]. by rewrite (Hm p1 p2).
Qed.

(** X1. The change kind depends on which status letters occur, not on
    their order or number: two statuses with the same letters resolve
    alike. *)
Theorem resolve_status_same_letters (status status' : str) :
  (forall c, c ∈ status <-> c ∈ status') ->
  resolve_status status = resolve_status status'.
Proof.
  intros H. rewrite !resolve_status_spec.
  by rewrite !(bool_decide_ext _ _ (H _)).
Qed.

Lemma resolve_status_same_letters_witness :
  resolve_status (lit "DM") = resolve_status (lit "MDM").
Proof.
  apply resolve_status_same_letters.
  intros c. vm_compute lit. rewrite !elem_of_cons. tauto.
Defined.

(** X2. The similarity score does not count: digits appended to a prefix
    leave its status letters as they are. *)
Theorem status_of_prefix_score (prefix score : str) :
  Forall (fun c => is_digit c = true) score ->
  status_of_prefix (prefix ++ score) = status_of_prefix prefix.
Proof.
  intros Hd. unfold status_of_prefix.
  rewrite rsplit1_last_app_no_sep.
  - by apply rstrip_app_stripped.
  - intros Hin. rewrite Forall_forall in Hd. specialize (Hd _ Hin).
    vm_compute in Hd. discriminate.
Qed.

Lemma status_of_prefix_score_witness :
  status_of_prefix (lit ":100644 100644 a b R" ++ lit "086")
  = status_of_prefix (lit ":100644 100644 a b R").
Proof.
  apply status_of_prefix_score.
  repeat constructor.
Defined.

(** X3. NUL characters at the end of a header line are ignored: a line
    that parses to an entry parses to the same entry with one more NUL. *)
Theorem parse_patch_header_line_trailing_nul (line name : str)
    (mode : Filemode) :
  _parse_patch_header_line line = inr (name, mode) ->
  _parse_patch_header_line (line ++ [NUL]) = inr (name, mode).
Proof.
  unfold _parse_patch_header_line.
  rewrite (rstrip_app_stripped [NUL] line [NUL]) by (by repeat constructor).
  destruct (split [NUL] (rstrip [NUL] line)) as [|prefix [|nm rest]];
    try discriminate.
  by destruct (resolve_status (status_of_prefix prefix)).
Qed.

Lemma parse_patch_header_line_trailing_nul_witness :
  _parse_patch_header_line
    ((lit ":100644 100644 a b M" ++ [NUL] ++ lit "f") ++ [NUL])
  = inr (lit "f", MODIFY).
Proof.
  apply parse_patch_header_line_trailing_nul. reflexivity.
Defined.

(** X4. A header line with no NUL between a prefix and a name (once the
    NULs at its end are removed) cannot be unpacked: the parser raises a
    ValueError, whatever the status letters. *)
Theorem parse_patch_header_line_no_name (line : str) :
  NUL ∉ rstrip [NUL] line ->
  _parse_patch_header_line line
  = inl (ValueError
           (lit "not enough values to unpack (expected at least 2, got 1)")).
Proof.
  intros H. unfold _parse_patch_header_line, split, split_with.
  by rewrite split_single_no_sep.
Qed.

Lemma parse_patch_header_line_no_name_witness :
  _parse_patch_header_line (lit ":100644 100644 a b M" ++ [NUL])
  = inl (ValueError
           (lit "not enough values to unpack (expected at least 2, got 1)")).
Proof.
  apply parse_patch_header_line_no_name.
  vm_compute. intros H. apply list_elem_of_In in H. simpl in H.
  repeat (destruct H as [H | H]; [discriminate|]). done.
Defined.

(** X5. A header that starts with a colon loses no line: every piece
    between separators, the first included, is parsed as a header line
    (a blank line stands for the missing commit information). *)
Theorem parse_patch_header_colon (h : str) :
  _parse_patch_header (58 :: h)
  = List.map (fun line => _parse_patch_header_line (58 :: line))
      (split_with _RX_HEADER_LINE_SEPARATOR h).
Proof.
  unfold _parse_patch_header, header_lines. simpl.
  unfold split_with.
  by rewrite (split_go_prev_irrelevant _ (Some 58) None).
Qed.

(* ===================================================================== *)
(** * Further properties of the patch parser *)
(* ===================================================================== *)

Lemma startswith_spec (p s : str) :
  startswith p s = true <-> exists t, s = p ++ t.
Proof.
  revert s. induction p as [|a p IH]; intros s; simpl.
  - split; eauto.
  - destruct s as [|b s].
    + split; [discriminate | by intros [t [=]]].
    + rewrite andb_true_iff, N.eqb_eq, IH. split.
      * intros [-> [t ->]]. eauto.
      * intros [t [= -> ->]]. eauto.
Qed.

Lemma contains_unfold (needle s : str) :
  contains needle s
  = startswith needle s
    || match s with [] => false | _ :: s' => contains needle s' end.
Proof. by destruct s. Qed.

Lemma find_unfold (needle s : str) :
  find needle s
  = if startswith needle s then Some 0%nat
    else match s with [] => None | _ :: s' => S <$> find needle s' end.
Proof. by destruct s. Qed.

(** [needle in s] is the presence of [needle] as a run of [s]. *)
Lemma contains_substring (needle s : str) :
  contains needle s = true <-> substring_of needle s.
Proof.
  unfold substring_of. induction s as [|c s IH].
  - rewrite contains_unfold, orb_false_r, startswith_spec. split.
    + intros [t Ht]. exists [], t. done.
    + intros (pre & post & H). symmetry in H.
      apply app_eq_nil in H as [-> H]. eauto.
  - rewrite contains_unfold, orb_true_iff, startswith_spec, IH. split.
    + intros [[t ->] | (pre & post & ->)].
      * by exists [], t.
      * by exists (c :: pre), post.
    + intros ([|x pre] & post & H).
      * left. eauto.
      * right. injection H as -> ->. eauto.
Qed.

Lemma find_None_contains (needle s : str) :
  contains needle s = false -> find needle s = None.
Proof.
  induction s as [|c s IH]; rewrite contains_unfold, find_unfold;
    intros [-> H]%orb_false_iff; [done|].
  by rewrite IH.
Qed.

Lemma find_Some_startswith (needle s : str) (i : nat) :
  find needle s = Some i -> startswith needle (drop i s) = true.
Proof.
  revert i. induction s as [|c s IH]; intros i; rewrite find_unfold;
    destruct (startswith needle _) eqn:E.
  - by intros [= <-].
  - discriminate.
  - by intros [= <-].
  - destruct (find needle s) as [j|]; [|discriminate].
    intros [= <-]. by apply IH.
Qed.

(** The pairs a zip makes come from the two sides. *)
Lemma zip_gen_elem {A B} (g : Steps A) (l : list B) (a : A) (b : B) :
  (a, b) ∈ fst (zip_gen g l) -> inr a ∈ g /\ b ∈ l.
Proof.
  revert l. induction g as [|[e|x] g IH]; intros l; simpl.
  - intros H. inversion H.
  - intros H. inversion H.
  - destruct l as [|y l]; [intros H; inversion H|].
    destruct (zip_gen g l) as [r e] eqn:E. simpl.
    intros [[= -> ->] | H]%elem_of_cons.
    + split; left.
    + specialize (IH l). rewrite E in IH. destruct (IH H). split; by right.
Qed.

(** The header line parser never answers the kind FILE. *)
Lemma parse_patch_header_line_kind (line name : str) (mode : Filemode) :
  _parse_patch_header_line line = inr (name, mode) ->
  mode = MODIFY \/ mode = NEW \/ mode = RENAME \/ mode = DELETE.
Proof.
  unfold _parse_patch_header_line.
  destruct (split _ _) as [|prefix [|nm rest]]; try discriminate.
  unfold resolve_status.
  repeat (destruct (contains _ _); [intros [= _ <-]; tauto|]).
  discriminate.
Qed.

(** The pieces of a split are runs of the text, the first one after what
    was accumulated before. *)
Lemma split_go_pieces (m : matcher) (prev : option char) (skip : nat)
    (cur s p : str) :
  p ∈ split_go m prev skip cur s ->
  (exists t, p = cur ++ t /\ substring_of t s /\
             (skip = 0%nat -> exists t', s = t ++ t'))
  \/ substring_of p s.
Proof.
  revert prev skip cur.
  induction s as [|c s IH]; intros prev skip cur; simpl.
  - intros ->%list_elem_of_singleton. left. exists [].
    rewrite app_nil_r. split_and!; [done | by exists [], [] | by exists []].
  - assert (forall q, substring_of q s -> substring_of q (c :: s)) as Hsub.
    { intros q (pre & post & ->). by exists (c :: pre), post. }
    destruct skip as [|k].
    + destruct (m prev (c :: s)) as [[|k]|] eqn:E.
      * intros [(t & -> & Ht & Hp) | H]%IH; [|right; by apply Hsub].
        destruct (Hp eq_refl) as [t' ->].
        left. exists (c :: t). rewrite <- app_assoc. split_and!; [done | |].
        -- by exists [], t'.
        -- intros _. by exists t'.
      * intros [-> | H]%elem_of_cons.
        -- left. exists []. rewrite app_nil_r.
           split_and!; [done | by exists [], (c :: s) | by exists (c :: s)].
        -- apply IH in H as [(t & -> & Ht & _) | H];
             right; by apply Hsub.
      * intros [(t & -> & Ht & Hp) | H]%IH; [|right; by apply Hsub].
        destruct (Hp eq_refl) as [t' ->].
        left. exists (c :: t). rewrite <- app_assoc. split_and!; [done | |].
        -- by exists [], t'.
        -- intros _. by exists t'.
    + intros [(t & -> & Ht & _) | H]%IH; [|right; by apply Hsub].
      left. exists t. split_and!; [done | by apply Hsub | done].
Qed.

Lemma split_with_pieces (m : matcher) (s p : str) :
  p ∈ split_with m s -> substring_of p s.
Proof.
  intros [(t & -> & Ht & _) | H]%split_go_pieces; done.
Qed.

Lemma substring_of_trans (a b c : str) :
  substring_of a b -> substring_of b c -> substring_of a c.
Proof.
  intros (p1 & q1 & ->) (p2 & q2 & ->).
  exists (p2 ++ p1), (q1 ++ q2). by rewrite <- !app_assoc.
Qed.

Section PatchParserProperties.

Variable Patterns : Type.
Variable is_filepath_excluded : str -> Patterns -> bool.
Variable urlparse_raises : str -> option Exn.

Local Abbreviation section :=
  (parse_section is_filepath_excluded urlparse_raises).
Local Abbreviation of_pair :=
  (scannable_of_pair is_filepath_excluded urlparse_raises).
Local Abbreviation hunk := (hunk_of_pair is_filepath_excluded).
Local Abbreviation commit_section :=
  (parse_commit is_filepath_excluded urlparse_raises).
Local Abbreviation parse :=
  (_parse_patch is_filepath_excluded urlparse_raises).

(** X6. A commit section without diff marker contributes nothing and
    raises nothing, whatever its header holds: the header is not even
    looked at. *)
Theorem parse_commit_no_diff (excl : Patterns) (commit : str) :
  contains (NUL :: lit "diff ") commit = false ->
  commit_section excl commit = ([], None).
Proof.
  intros H. unfold parse_commit, split_once.
  by rewrite (find_None_contains _ _ H).
Qed.

(** What becomes of one pair of the zip when its scannable is built. *)
Lemma hunk_of_pair_Some (excl : Patterns) (name : str)
    (mode : Filemode) (diff : str) (x : Scannable) :
  hunk excl ((name, mode), diff) = Some x ->
  is_filepath_excluded name excl = false /\
  exists content,
    x = OfString {| ss_url := name; ss_filemode := mode;
                    ss_content := content |} /\
    startswith (lit "@@") content = true /\
    substring_of content diff.
Proof.
  unfold hunk_of_pair.
  destruct (is_filepath_excluded name excl); [discriminate|].
  destruct (find (LF :: lit "@@") diff) as [i|] eqn:F; [|discriminate].
  intros [= <-]. split; [done|].
  exists (drop (i + 1) diff). split_and!; [done | |].
  - apply find_Some_startswith, startswith_spec in F as [t Ht].
    rewrite <- drop_drop, Ht.
    change (startswith (lit "@@") (lit "@@" ++ t) = true).
    apply startswith_app.
  - exists (take (i + 1) diff), []. by rewrite app_nil_r, take_drop.
Qed.

Lemma scannable_of_pair_Some (excl : Patterns) (name : str)
    (mode : Filemode) (diff : str) (x : Scannable) :
  of_pair excl ((name, mode), diff) = Some (inr x) ->
  hunk excl ((name, mode), diff) = Some x /\ urlparse_raises name = None.
Proof.
  unfold scannable_of_pair, Scannable_init.
  destruct (hunk excl _) as [y|] eqn:Hy; [|discriminate].
  rewrite (hunk_of_pair_url Patterns is_filepath_excluded _ _ _ _ _ Hy).
  destruct (urlparse_raises name); [discriminate|]. by intros [= ->].
Qed.

(** X7. Whatever a commit section yields, even when it ends by raising,
    is an in-memory scannable whose name and kind are an entry that the
    header of this section yields, whose name is not excluded and is
    accepted by [urlparse], whose kind is MODIFY, NEW, RENAME or DELETE
    (never FILE), and whose content is a run of the diff text that begins
    with the hunk marker ["@@"]. *)
Theorem parse_section_yields (excl : Patterns) (header rest : str)
    (x : Scannable) :
  x ∈ fst (section excl header rest) ->
  exists name mode content,
    x = OfString {| ss_url := name; ss_filemode := mode;
                    ss_content := content |} /\
    inr (name, mode) ∈ _parse_patch_header header /\
    is_filepath_excluded name excl = false /\
    urlparse_raises name = None /\
    (mode = MODIFY \/ mode = NEW \/ mode = RENAME \/ mode = DELETE) /\
    startswith (lit "@@") content = true /\
    substring_of content rest.
Proof.
  unfold parse_section.
  destruct (zip_gen _ _) as [pairs e] eqn:Z.
  intros ([[name mode] diff] & Hin & Hx)%for_yield_elem.
  assert ((name, mode, diff) ∈ fst (zip_gen (_parse_patch_header header)
                                    (split_with RX_DIFF_LINE rest)))
    as Hz by (by rewrite Z).
  apply zip_gen_elem in Hz as [Hname Hdiff].
  apply scannable_of_pair_Some in Hx as [Hx Hurl].
  apply hunk_of_pair_Some in Hx as (Hex & content & -> & Hc & Hsub).
  assert (exists line, _parse_patch_header_line line = inr (name, mode))
    as [line Hline].
  { pose proof Hname as Hn. unfold _parse_patch_header in Hn.
    destruct (header_lines header) as [err|lines].
    - apply list_elem_of_singleton in Hn. discriminate.
    - apply list_elem_of_In, in_map_iff in Hn as (l & Hl & _). eauto. }
  exists name, mode, content. split_and!; try done.
  - by apply parse_patch_header_line_kind in Hline.
  - eapply substring_of_trans; [done|]. by apply split_with_pieces in Hdiff.
Qed.


(** X9. A header line that would fail to parse is never parsed when it
    stands more than one position after the last diff: the section raises
    only what [urlparse] raises on the name of a paired entry, and ends
    normally with the scannables of the pairs when [urlparse] accepts
    these names. *)
Theorem parse_section_unreached_line (excl : Patterns)
    (header rest : str) (entries : list (str * Filemode))
    (g : Steps (str * Filemode)) :
  _parse_patch_header header = List.map inr entries ++ g ->
  (length (split_with RX_DIFF_LINE rest) < length entries)%nat ->
  (forall e, snd (section excl header rest) = Some e ->
     exists name mode,
       (name, mode) ∈ entries /\ urlparse_raises name = Some e) /\
  (Forall (fun entry => urlparse_raises entry.1 = None) entries ->
   section excl header rest
   = (omap (hunk excl) (zip entries (split_with RX_DIFF_LINE rest)),
      None)).
Proof.
  intros H Hlen. unfold parse_section.
  rewrite H, zip_gen_unreached by done. split.
  - intros e [[=] | ([[name mode] diff] & Hin & Hb)]%for_yield_raises.
    exists name, mode. split.
    + by apply elem_of_zip_l in Hin.
    + by apply (scannable_of_pair_raises Patterns is_filepath_excluded
                  urlparse_raises _ _ _ _ _ Hb).
  - intros Hall. apply for_yield_pure.
    by apply scannable_of_pairs_accepted.
Qed.

Lemma gen_concat_all_empty {A} (gs : list (Gen A)) :
  Forall (fun g => g = ([], None)) gs -> gen_concat gs = ([], None).
Proof.
  induction 1 as [|g gs -> _ IH]; [done|]. simpl. by rewrite IH.
Qed.

(** X10. A patch in which the diff marker does not occur yields no
    scannable and raises nothing. *)
Theorem parse_patch_no_diff_marker (excl : Patterns) (patch : str) :
  contains (NUL :: lit "diff ") patch = false ->
  parse patch excl = ([], None).
Proof.
  intros H. unfold _parse_patch. apply gen_concat_all_empty.
  apply Forall_forall. intros g (commit & <- & Hin)%list_elem_of_In%in_map_iff.
  apply parse_commit_no_diff.
  destruct (contains _ commit) eqn:E; [|done].
  apply contains_substring in E.
  apply list_elem_of_In, split_with_pieces in Hin.
  assert (contains (NUL :: lit "diff ") patch = true) as H'; [|congruence].
  apply contains_substring. by eapply substring_of_trans.
Qed.

End PatchParserProperties.

Lemma parse_commit_no_diff_witness :
  parse_commit Sample.not_excluded Sample.urlparse_raises tt
    Sample.merge_without_diff
  = ([], None).
Proof.
  apply parse_commit_no_diff. reflexivity.
Defined.

Lemma parse_section_yields_witness :
  exists name mode content,
    Sample.scannable_a
    = OfString {| ss_url := name; ss_filemode := mode;
                  ss_content := content |} /\
    inr (name, mode) ∈ _parse_patch_header Sample.header_two /\
    Sample.not_excluded name tt = false /\
    Sample.urlparse_raises name = None /\
    (mode = MODIFY \/ mode = NEW \/ mode = RENAME \/ mode = DELETE) /\
    startswith (lit "@@") content = true /\
    substring_of content Sample.rest_one.
Proof.
  apply (parse_section_yields unit Sample.not_excluded
           Sample.urlparse_raises tt Sample.header_two Sample.rest_one).
  vm_compute. apply list_elem_of_here.
Defined.


(** With the header line of unknown status in third place and one diff:
    the scannable of the first pair, and a normal end. *)
Lemma parse_section_unreached_line_witness :
  parse_section Sample.not_excluded Sample.urlparse_raises tt
    Sample.header_bad_third Sample.rest_one
  = ([Sample.scannable_a], None).
Proof.
  assert (length (split_with RX_DIFF_LINE Sample.rest_one)
          < length [(lit "a.txt", MODIFY); (lit "b.txt", DELETE)])%nat
    as Hlen by (vm_compute; lia).
  assert (Forall (fun entry => Sample.urlparse_raises entry.1 = None)
            [(lit "a.txt", MODIFY); (lit "b.txt", DELETE)]) as Hall
    by (repeat constructor).
  exact (proj2 (parse_section_unreached_line unit Sample.not_excluded
                  Sample.urlparse_raises tt
                  Sample.header_bad_third Sample.rest_one
                  [(lit "a.txt", MODIFY); (lit "b.txt", DELETE)]
                  [inl (ValueError (lit "Can't parse header line "
                                    ++ Sample.unknown_line
                                    ++ lit ": unknown status X"))]
                  eq_refl Hlen) Hall).
Defined.

(** A name [urlparse] rejects: the constructor raises before the header
    line after it is parsed. *)
Example parse_section_bracket_first :
  parse_section Sample.not_excluded Sample.urlparse_raises tt
    (lit "commit 1234" ++ [LF; LF]
     ++ lit ":100644 100644 aaaa bbbb M" ++ [NUL] ++ lit "//[x" ++ [NUL]
     ++ Sample.unknown_line)
    Sample.rest_one
  = ([], Some (ValueError (lit "Invalid IPv6 URL"))).
Proof. reflexivity. Qed.

Lemma parse_patch_no_diff_marker_witness :
  _parse_patch Sample.not_excluded Sample.urlparse_raises
    (Sample.merge_without_diff ++ (NUL :: lit "commit ")
     ++ Sample.merge_without_diff) tt
  = ([], None).
Proof.
  apply parse_patch_no_diff_marker. reflexivity.
Defined.

(* ===================================================================== *)
(** * Further properties of files and file sets *)
(* ===================================================================== *)

Lemma file_reads_app (w w' : World) :
  file_reads (w ++ w') = (file_reads w + file_reads w')%nat.
Proof. unfold file_reads. by rewrite List.filter_app, length_app. Qed.

Section FileFurtherProperties.

Variable from_bytes_best : bytes -> option str.
Variable codecs_decode : str -> bytes -> str.
Variable urlparse_path : str -> str.
Variable disk : str -> Exn + bytes.

Local Abbreviation is_longer_than := (File_is_longer_than urlparse_path disk).
Local Abbreviation content :=
  (File_content from_bytes_best codecs_decode urlparse_path disk).

(** X11. [is_longer_than] never reads the file: whatever the state of the
    file object, the size asked and the answer, the log records no read
    more than before. *)
Theorem File_is_longer_than_no_read (f : File) (size : Z) (w : World) :
  file_reads (snd (is_longer_than f size w)) = file_reads w.
Proof.
  unfold File_is_longer_than, getsize.
  destruct (truthy_opt_str _); [done|].
  destruct (disk _); cbn [snd]; rewrite file_reads_app; cbn; lia.
Qed.

(** X12. After the content has been read and is not empty,
    [is_longer_than] compares the size with the length of that text and
    touches nothing. *)
Theorem File_is_longer_than_after_content (f f' : File) (w w' w2 : World)
    (c : str) (size : Z) :
  content f w = (inr c, f', w') -> c <> [] ->
  is_longer_than f' size w2 = (inr (size <? Z.of_nat (length c))%Z, w2).
Proof.
  intros H Hne.
  assert (file_content f' = Some c) as Hc.
  { revert H. unfold File_content.
    destruct (file_content f) as [c0|] eqn:C.
    - by intros [= -> -> _].
    - destruct (disk _); [discriminate|].
      destruct (_decode_bytes _ _ _ _ _). by intros [= -> <- _]. }
  unfold File_is_longer_than. rewrite Hc. by destruct c.
Qed.

(** X13. The content of a file is read and decoded once: an access that
    returned leaves the text in the object, and any later access returns
    the same text without reading anything. *)
Theorem File_content_read_once (f f' : File) (w w' w2 : World) (c : str) :
  content f w = (inr c, f', w') ->
  content f' w2 = (inr c, f', w2) /\
  (file_content f = None -> file_reads w' = S (file_reads w)).
Proof.
  unfold File_content. destruct (file_content f) as [c0|] eqn:C.
  - intros [= -> -> ->]. by rewrite C.
  - destruct (disk _) as [|raw]; [discriminate|].
    unfold _decode_bytes.
    destruct (from_bytes_best raw); intros [= <- <- <-];
      (split; [done|]); intros _;
      rewrite ?file_reads_app; cbn; lia.
Qed.

End FileFurtherProperties.

Lemma File_is_longer_than_after_content_witness :
  File_is_longer_than Sample.plain_path Sample.text_disk
    (set_file_content (File_init (lit "a.txt")) (lit "hello")) 4 []
  = (inr true, []).
Proof.
  assert (lit "hello" <> []) as Hne by discriminate.
  exact (File_is_longer_than_after_content Sample.best_utf8 Sample.no_codec
           Sample.plain_path Sample.text_disk
           (File_init (lit "a.txt")) _ [] _ [] (lit "hello") 4
           eq_refl Hne).
Defined.

Lemma File_content_read_once_witness :
  let f' := set_file_content (File_init (lit "a.txt")) (lit "hello") in
  File_content Sample.best_utf8 Sample.no_codec Sample.plain_path
    Sample.text_disk f' []
  = (inr (lit "hello"), f', []).
Proof.
  exact (proj1 (File_content_read_once Sample.best_utf8 Sample.no_codec
                  Sample.plain_path Sample.text_disk
                  (File_init (lit "a.txt")) _ [] _ [] (lit "hello")
                  eq_refl)).
Defined.

(** What [apply_filter] leaves in the store. *)
Lemma apply_filter_store (self : FilesObj.Files)
    (filter_func : Scannable -> bool) (h : FilesObj.store)
    (l : list Scannable) :
  h !! FilesObj._files self = Some l ->
  snd (FilesObj.apply_filter self filter_func h)
    !! FilesObj._files (fst (FilesObj.apply_filter self filter_func h))
  = Some (List.filter filter_func l) /\
  snd (FilesObj.apply_filter self filter_func h) !! FilesObj._files self
  = Some l.
Proof.
  intros Hl.
  unfold FilesObj.apply_filter, FilesObj.new_list, FilesObj.files.
  cbn [fst snd FilesObj._files FilesObj.Files_init].
  rewrite Hl. cbn [default]. rewrite lookup_insert_eq. split; [done|].
  rewrite lookup_insert_ne; [done|].
  intros E. apply (is_fresh (dom h)). rewrite E.
  apply elem_of_dom. by eexists.
Qed.

Lemma filter_filter_andb {A} (f g : A -> bool) (l : list A) :
  List.filter g (List.filter f l) = List.filter (fun x => f x && g x) l.
Proof.
  induction l as [|x l IH]; [done|]. simpl.
  destruct (f x); simpl; [destruct (g x)|]; by rewrite IH.
Qed.

(** X14. Two filters in a row keep the scannables that satisfy both; the
    receiver and the intermediate file set keep their own lists. *)
Theorem apply_filter_twice (self : FilesObj.Files)
    (f g : Scannable -> bool) (h : FilesObj.store) (l : list Scannable) :
  h !! FilesObj._files self = Some l ->
  let first := FilesObj.apply_filter self f h in
  let second := FilesObj.apply_filter (fst first) g (snd first) in
  FilesObj.files (fst second) (snd second)
  = List.filter (fun x => f x && g x) l /\
  FilesObj.files (fst first) (snd second) = List.filter f l /\
  FilesObj.files self (snd second) = l.
Proof.
  intros Hl first second. subst first second.
  destruct (apply_filter_store self f h l Hl) as [H1 H0].
  set (s1 := FilesObj.apply_filter self f h) in *.
  destruct (apply_filter_store (fst s1) g (snd s1) _ H1) as [H2 H1'].
  set (s2 := FilesObj.apply_filter (fst s1) g (snd s1)) in *.
  unfold FilesObj.files. rewrite H2, H1'. cbn [default].
  split_and!; [apply filter_filter_andb | done |].
  (* the receiver's list survives the second filter as well *)
  subst s2. unfold FilesObj.apply_filter, FilesObj.new_list.
  cbn [fst snd FilesObj._files FilesObj.Files_init].
  rewrite lookup_insert_ne; [by rewrite H0|].
  intros E. apply (is_fresh (dom (snd s1))). rewrite E.
  apply elem_of_dom. by eexists.
Qed.

Lemma apply_filter_twice_witness :
  let self := FilesObj.Files_init 1%positive in
  let h : FilesObj.store := {[ 1%positive := [Sample.large; Sample.small] ]} in
  let first := FilesObj.apply_filter self Sample.is_plain_file h in
  let second :=
    FilesObj.apply_filter (fst first) Sample.at_most_4 (snd first) in
  FilesObj.files (fst second) (snd second) = [Sample.small] /\
  FilesObj.files (fst first) (snd second) = [Sample.large; Sample.small] /\
  FilesObj.files self (snd second) = [Sample.large; Sample.small].
Proof.
  exact (apply_filter_twice (FilesObj.Files_init 1%positive)
           Sample.is_plain_file Sample.at_most_4
           {[ 1%positive := [Sample.large; Sample.small] ]}
           [Sample.large; Sample.small] eq_refl).
Defined.

(* ===================================================================== *)
(** * Further properties of commits *)
(* ===================================================================== *)

Section CommitFurtherProperties.

Variable Patterns : Type.
Variable is_filepath_excluded : str -> Patterns -> bool.
Variable urlparse_raises : str -> option Exn.
Variable git : list str -> World -> Exn + str.
Variable REGEX_HEADER_INFO_search : str -> option CommitInformation.

Local Abbreviation Commit := (Commit Patterns).
Local Abbreviation patch := (patch git).
Local Abbreviation get_files :=
  (get_files is_filepath_excluded urlparse_raises git).
Local Abbreviation files :=
  (files is_filepath_excluded urlparse_raises git).
Local Abbreviation info := (info git REGEX_HEADER_INFO_search).

(** X15. When git fails, [patch] raises the exception of git as it is and
    keeps nothing: the commit is unchanged, and the next access runs git
    again. *)
Theorem patch_failure_not_memoized (c c' : Commit) (w w' : World)
    (e : Exn) :
  patch c w = (inl e, c', w') ->
  git (git_args c) w = inl e /\
  c' = c /\
  w' = w ++ [GitCall (git_args c)] /\
  snd (patch c' w') = w' ++ [GitCall (git_args c)].
Proof.
  intros H. assert (_patch c = None) as Hn.
  { destruct (_patch c) eqn:E; [|done].
    by rewrite (patch_cached Patterns git _ _ _ E) in H. }
  rewrite (patch_fetch Patterns git _ _ Hn) in H.
  destruct (git (git_args c) w) as [e0|p] eqn:G; [|discriminate].
  injection H as -> <- <-. split_and!; try done.
  rewrite (patch_fetch Patterns git _ _ Hn).
  match goal with |- snd (match ?x with _ => _ end) = _ => by destruct x end.
Qed.

(** X16. [get_files] never stores what it parses and never changes the
    revision or the exclusion patterns: only the patch text may be new
    in the commit. *)
Theorem get_files_frame (c c' : Commit) (w w' : World) (g : Gen Scannable) :
  get_files c w = (g, c', w') ->
  _files c' = _files c /\ sha c' = sha c /\
  exclusion_regexes c' = exclusion_regexes c /\ _info c' = _info c.
Proof.
  unfold get_files.
  destruct (patch c w) as [[[e|p] c1] w1] eqn:Hp;
    destruct (patch_frame Patterns git _ _ _ _ _ Hp) as (? & ? & ? & ?).
  - by intros [= _ <- _].
  - destruct (_parse_patch _ _ _ _) as [xs [e|]]; by intros [= _ <- _].
Qed.

(** X17. [info] is computed once: after an access that returned, every
    access returns the same information and touches nothing, whatever has
    happened in between. *)
Theorem info_memoized (c c' : Commit) (w w' w2 : World)
    (i : CommitInformation) :
  info c w = (inr i, c', w') ->
  info c' w2 = (inr i, c', w2).
Proof.
  unfold info.
  destruct (_info c) as [i0|] eqn:E.
  - intros [= -> -> _]. by rewrite E.
  - destruct (patch c w) as [[[e|p] c1] w1]; [discriminate|].
    by intros [= <- <- _].
Qed.

(** X18. Once the patch text is in the commit, [info] cannot fail and runs
    nothing: it answers from the commit, or from the patch text, where a
    header that does not match gives the author ["unknown"] with empty
    email and date. *)
Theorem info_from_fetched_patch (c : Commit) (w : World) (p : str) :
  _patch c = Some p ->
  exists i c',
    info c w = (inr i, c', w) /\
    (_info c = None -> REGEX_HEADER_INFO_search p = None ->
     i = {| author := lit "unknown"; email := []; date := [] |}).
Proof.
  intros Hp. unfold info.
  destruct (_info c) as [i0|] eqn:E.
  - exists i0, c. split; [done|]. discriminate.
  - rewrite (patch_cached Patterns git _ _ _ Hp).
    destruct (REGEX_HEADER_INFO_search p) eqn:R;
      eexists _, _; (split; [done|]); [discriminate | done].
Qed.

End CommitFurtherProperties.

Lemma patch_failure_not_memoized_witness :
  let c := Commit_init (Some (lit "1234")) tt in
  Sample.git_fails (git_args c) []
  = inl (ExternalError (lit "fatal: bad object")) /\
  snd (patch Sample.git_fails c [GitCall (git_args c)])
  = [GitCall (git_args c); GitCall (git_args c)].
Proof.
  pose proof (patch_failure_not_memoized unit Sample.git_fails
                (Commit_init (Some (lit "1234")) tt) _ [] _ _ eq_refl)
    as (H1 & _ & _ & H2).
  split; [exact H1 | exact H2].
Defined.

Lemma get_files_frame_witness :
  let c := Commit_init (Some (lit "1234")) tt in
  let r :=
    get_files Sample.not_excluded Sample.urlparse_raises
      (Sample.git_prints Sample.patch_one_file) c [] in
  fst (fst r) = ([Sample.scannable_a], None) /\
  _files (snd (fst r)) = [].
Proof.
  pose proof (get_files_frame unit Sample.not_excluded Sample.urlparse_raises
                (Sample.git_prints Sample.patch_one_file)
                (Commit_init (Some (lit "1234")) tt) _ [] _ _ eq_refl)
    as (H & _).
  split; [reflexivity | exact H].
Defined.

Lemma info_memoized_witness :
  let c1 :=
    set_info
      (set_patch (Commit_init (Some (lit "1234")) tt) Sample.patch_one_file)
      {| author := lit "unknown"; email := []; date := [] |} in
  info Sample.git_fails Sample.no_info c1 []
  = (inr {| author := lit "unknown"; email := []; date := [] |}, c1, []).
Proof.
  exact (info_memoized unit (Sample.git_prints Sample.patch_one_file)
           Sample.no_info (Commit_init (Some (lit "1234")) tt) _ [] _ []
           _ eq_refl).
Defined.

Lemma info_from_fetched_patch_witness :
  exists i c',
    info Sample.git_fails Sample.no_info
      (set_patch (Commit_init None tt) Sample.patch_one_file) []
    = (inr i, c', []) /\
    (_info (set_patch (Commit_init None tt) Sample.patch_one_file) = None ->
     Sample.no_info Sample.patch_one_file = None ->
     i = {| author := lit "unknown"; email := []; date := [] |}).
Proof.
  exact (info_from_fetched_patch unit Sample.git_fails Sample.no_info
           (set_patch (Commit_init None tt) Sample.patch_one_file) []
           Sample.patch_one_file eq_refl).
Defined.

Lemma get_files_wraps_git_failure_witness :
  let c := Commit_init (Some (lit "1234")) tt in
  get_files Sample.not_excluded Sample.urlparse_raises Sample.git_fails c []
  = (([], Some (PatchParseError
                  (lit "Could not parse patch (sha: 1234): fatal: bad object"))),
     c, [GitCall (git_args c)]).
Proof.
  exact (get_files_wraps_git_failure unit
      Sample.not_excluded Sample.urlparse_raises
           Sample.git_fails (Commit_init (Some (lit "1234")) tt) _ [] _ _
           eq_refl).
Defined.

Lemma files_memoized_nonempty_witness :
  let c1 :=
    set_files
      (set_patch (Commit_init (Some (lit "1234")) tt) Sample.patch_one_file)
      [Sample.scannable_a] in
  files Sample.not_excluded Sample.urlparse_raises
      (Sample.git_prints Sample.patch_one_file) c1 []
  = (inr [Sample.scannable_a], c1, []).
Proof.
  assert ([Sample.scannable_a] <> []) as Hne by discriminate.
  exact (files_memoized_nonempty unit Sample.not_excluded Sample.urlparse_raises
           (Sample.git_prints Sample.patch_one_file)
           (Commit_init (Some (lit "1234")) tt) _ [] _ []
           [Sample.scannable_a] eq_refl Hne).
Defined.

Lemma Commit_apply_filter_files_witness :
  let c := Commit_init (Some (lit "1234")) tt in
  let r :=
    Commit_apply_filter Sample.not_excluded Sample.urlparse_raises
      (Sample.git_prints Sample.patch_one_file) c
      (fun x => negb (Sample.at_most_4 x)) [] in
  fst (fst r) = inr [Sample.scannable_a] /\
  _files (snd (fst r)) = [Sample.scannable_a].
Proof.
  pose proof (Commit_apply_filter_files unit
      Sample.not_excluded Sample.urlparse_raises
                (Sample.git_prints Sample.patch_one_file)
                (Commit_init (Some (lit "1234")) tt) _ [] _
                [Sample.scannable_a]
                (fun x => negb (Sample.at_most_4 x)) eq_refl) as [H1 H2].
  split; [by rewrite H1 | by rewrite H1].
Defined.

(* ===================================================================== *)
(** * Further properties of the decoder and of the header *)
(* ===================================================================== *)

(** Detected as Latin-1, the three bytes of the mark stay in the text. *)
Lemma decode_bytes_no_bom_witness :
  _decode_bytes Sample.best_latin1 Sample.latin1_codec
    (BOM_UTF8 ++ [x68; x69]) (lit "a.txt") []
  = ([0xEF; 0xBB; 0xBF; 104; 105], []).
Proof.
  assert (bytes_startswith BOM_UTF8 (BOM_UTF8 ++ [x68; x69]) = false
          \/ lit "latin_1" <> lit "utf_8") as H by (right; discriminate).
  exact (decode_bytes_no_bom Sample.best_latin1 Sample.latin1_codec
           (BOM_UTF8 ++ [x68; x69]) (lit "latin_1") (lit "a.txt") []
           eq_refl H).
Defined.

(** X23. The two kinds of scannables decode alike: an in-memory
    scannable built from the bytes of a file, under the name of the file,
    holds the text the file-backed scannable returns as its content. *)
Theorem StringScannable_init_as_File (from_bytes_best : bytes -> option str)
    (codecs_decode : str -> bytes -> str) (urlparse_path : str -> str)
    (disk : str -> Exn + bytes) (name : str) (raw : bytes)
    (mode : Filemode) (w w0 : World) :
  disk (urlparse_path name) = inr raw ->
  fst (fst (File_content from_bytes_best codecs_decode urlparse_path disk
              (File_init name) w0))
  = inr (ss_content
           (fst (StringScannable_init from_bytes_best codecs_decode name
                   (inr raw) mode w))).
Proof.
  intros D. unfold File_content, StringScannable_init, path. simpl.
  rewrite D. unfold _decode_bytes. by destruct (from_bytes_best raw).
Qed.

Lemma StringScannable_init_as_File_witness :
  fst (fst (File_content Sample.best_utf8 Sample.no_codec Sample.plain_path
              Sample.text_disk (File_init (lit "a.txt")) []))
  = inr (lit "hello").
Proof.
  exact (StringScannable_init_as_File Sample.best_utf8 Sample.no_codec
           Sample.plain_path Sample.text_disk (lit "a.txt")
           [x68; x65; x6c; x6c; x6f] FILE [] [] eq_refl).
Defined.

(** Where the pattern matches nowhere, the text is a single piece. *)
Lemma split_go_no_match (m : matcher) (prev : option char) (cur s : str) :
  (forall p pre t, s = pre ++ t -> m p t = None) ->
  split_go m prev 0 cur s = [cur ++ s].
Proof.
  revert prev cur. induction s as [|c s IH]; intros prev cur H.
  - by rewrite app_nil_r.
  - simpl. rewrite (H prev [] (c :: s) eq_refl).
    rewrite IH; [by rewrite <- app_assoc|].
    intros p pre t ->. by apply (H p (c :: pre) t).
Qed.

Lemma header_separator_substring (p : option char) (t : str) :
  _RX_HEADER_LINE_SEPARATOR p t <> None ->
  substring_of [LF; 58] t \/ substring_of [NUL; 58] t.
Proof.
  unfold _RX_HEADER_LINE_SEPARATOR.
  destruct t as [|c1 [|c2 t]]; try done.
  destruct (c1 =? LF) eqn:E1; destruct (c1 =? NUL) eqn:E2;
    destruct (c2 =? 58) eqn:E3; simpl; try done;
    apply N.eqb_eq in E3 as ->; intros _.
  - apply N.eqb_eq in E1 as ->. left. by exists [], t.
  - apply N.eqb_eq in E1 as ->. left. by exists [], t.
  - apply N.eqb_eq in E2 as ->. right. by exists [], t.
Qed.

(** X24. A header that is not empty, does not start with a colon and has
    no colon right after a newline or a NUL (commit information without
    any file line) yields no entry and raises nothing. *)
Theorem parse_patch_header_no_lines (c : char) (h : str) :
  c <> 58 ->
  contains [LF; 58] (c :: h) = false ->
  contains [NUL; 58] (c :: h) = false ->
  _parse_patch_header (c :: h) = [].
Proof.
  intros Hc H1 H2. unfold _parse_patch_header, header_lines.
  destruct (N.eqb_spec c 58); [done|].
  unfold split_with. rewrite split_go_no_match; [done|].
  intros p pre t Ht.
  destruct (_RX_HEADER_LINE_SEPARATOR p t) eqn:E; [|done].
  exfalso.
  destruct (header_separator_substring p t) as [Hs | Hs]; [by rewrite E | |].
  - assert (contains [LF; 58] (c :: h) = true) as H; [|congruence].
    apply contains_substring. eapply substring_of_trans; [done|].
    exists pre, []. by rewrite app_nil_r.
  - assert (contains [NUL; 58] (c :: h) = true) as H; [|congruence].
    apply contains_substring. eapply substring_of_trans; [done|].
    exists pre, []. by rewrite app_nil_r.
Qed.

Lemma parse_patch_header_no_lines_witness :
  _parse_patch_header Sample.merge_without_diff = [].
Proof.
  apply (parse_patch_header_no_lines 99
           (lit "ommit 1234 (from 5678)" ++ [LF] ++ lit "Merge: 5678 9abc"
            ++ [LF] ++ lit "Author: A <a@b>" ++ [LF]));
    [discriminate | reflexivity | reflexivity].
Defined.
